(** * Tally Tracker: the abacus bead walk and the tally counters

    A shallow embedding of two screens of the app:

    - [Abacus]: the [onUpdate] handler of the pan gesture in
      [src/app/(tabs)/abacus.tsx], which moves the beads of one rod;
    - [Tally]: the score handlers of the tally screen
      ([handleCorrect], [handleTryAgain], [handleUndo], [handleReset]).

    JavaScript numbers that hold bead positions are modelled as exact
    rationals ([Q]): every finite double is a rational, and [+], [-] and the
    comparisons are taken without rounding.  Positions are therefore compared
    with [==] ([Qeq]).  The counters of the tally screen only ever hold
    integers and are modelled as [Z]. *)

From Stdlib Require Import QArith Qminmax Qabs Qround Lqa ZArith Lia.
From stdpp Require Import base list strings gmap.

Open Scope Q_scope.

(** ** Comparisons on rationals as booleans *)

Definition Qltb (a b : Q) : bool := negb (Qle_bool b a).
Definition Qleb (a b : Q) : bool := Qle_bool a b.

(** ** Outcome of a handler: a value, or one of the two ways of not
       producing one *)

Inductive result (A : Type) : Type :=
| Ok (a : A)
| TypeError      (* a property of [undefined] was read *)
| OutOfFuel.     (* the loop model ran out of iterations *)
Arguments Ok {A} a.
Arguments TypeError {A}.
Arguments OutOfFuel {A}.

#[global] Instance result_ret : MRet result := fun A a => Ok a.
#[global] Instance result_bind : MBind result := fun A B k r =>
  match r with
  | Ok a => k a
  | TypeError => TypeError
  | OutOfFuel => OutOfFuel
  end.

(** [arr[i]] of JavaScript for a signed index: [undefined] out of range. *)
Definition js_get {A : Type} (arr : list A) (i : Z) : option A :=
  if (0 <=? i)%Z then arr !! Z.to_nat i else None.

(** Reading a property of [arr[i]] throws on [undefined]. *)
Definition js_read {A : Type} (arr : list A) (i : Z) : result A :=
  match js_get arr i with
  | Some a => Ok a
  | None => TypeError
  end.

(** ** The abacus screen *)

Module Abacus.

Definition NUM_RODS : nat := 6.
Definition BEADS_PER_ROD : nat := 10.

(** The module constants that depend on the window. *)
Record Layout : Type := mkLayout {
  availableWidth : Q;
  beadWidth : Q
}.

Definition rodHeight : Q := 4.

Definition abacusWidth (windowWidth : Q) : Q :=
  Qmin (windowWidth - 32) 1000.

(** [availableWidth = abacusWidth - 48] and
    [beadWidth = Math.min(rodHeight * 10,
                          availableWidth / (BEADS_PER_ROD * 1.5))]. *)
Definition window_layout (windowWidth : Q) : Layout :=
  let aw := abacusWidth windowWidth - 48 in
  {| availableWidth := aw;
     beadWidth :=
       Qmin (rodHeight * 10)
            (aw / (inject_Z (Z.of_nat BEADS_PER_ROD) * (3 # 2))) |}.

Definition beadSpacing : Q := 2.
Definition beadUnit (L : Layout) : Q := beadWidth L + beadSpacing.

Definition minX : Q := 0.
Definition maxX (L : Layout) : Q := availableWidth L - beadWidth L.

(** The shared values of one rod, by bead index:
    [useSharedValue(beadIndex * beadUnit)]. *)
Definition initial_rod (L : Layout) : list Q :=
  map (fun beadIndex : nat => inject_Z (Z.of_nat beadIndex) * beadUnit L)
      (seq 0 BEADS_PER_ROD).

(** [resetAbacus]: every shared value of every rod goes back to
    [beadIndex * beadUnit]. *)
Definition resetAbacus (L : Layout) (rods : list (list Q)) : list (list Q) :=
  map (fun rodBeads : list Q =>
         imap (fun (beadIndex : nat) (_ : Q) =>
                 inject_Z (Z.of_nat beadIndex) * beadUnit L) rodBeads)
      rods.

(** [const direction = dx > 0 ? 1 : -1] *)
Definition direction_of (dx : Q) : Z :=
  if Qltb 0 dx then 1%Z else (-1)%Z.

(** [nextIndex >= 0 && nextIndex < rodBeads.length] *)
Definition in_rod (rodBeads : list Q) (index : Z) : bool :=
  (0 <=? index)%Z && (index <? Z.of_nat (length rodBeads))%Z.

(** Lines 158-176: the position committed for the current bead, from its
    own value and the value of the neighbour ahead ([None] when
    [hasNext] is false). *)
Definition resolve (L : Layout) (dx : Q) (direction : Z)
    (current : Q) (next : option Q) : Q :=
  let proposedX := current + dx in
  let proposedX := Qmax minX (Qmin proposedX (maxX L)) in
  match next with
  | Some nextX =>
      let spacing :=
        if (0 <? direction)%Z
        then Qltb nextX (proposedX + beadUnit L)
        else Qltb proposedX (nextX + beadUnit L) in
      if spacing
      then (if (0 <? direction)%Z
            then nextX - beadUnit L
            else nextX + beadUnit L)
      else proposedX
  | None => proposedX
  end.

(** The break test of lines 182-184 on a committed position. *)
Definition overlapResolved (L : Layout) (direction : Z) (proposedX : Q)
    : bool :=
  if (0 <? direction)%Z
  then Qleb (maxX L) (proposedX + beadUnit L)
  else Qleb proposedX minX.

(** One iteration of the [while] loop (lines 155-188).  The result is the
    rod after [current.sharedX.value = proposedX] and the index to go on
    with, or [None] after a [break]. *)
Definition walk_body (L : Layout) (dx : Q) (direction : Z)
    (rodBeads : list Q) (index : Z) : result (list Q * option Z) :=
  current ← js_read rodBeads index;
  let nextIndex := (index + direction)%Z in
  let hasNext := in_rod rodBeads nextIndex in
  next ← (if hasNext
           then nextX ← js_read rodBeads nextIndex; Ok (Some nextX)
           else Ok None);
  let proposedX := resolve L dx direction current next in
  let rodBeads' := <[Z.to_nat index := proposedX]> rodBeads in
  if negb hasNext then Ok (rodBeads', None)
  else
    if overlapResolved L direction proposedX then Ok (rodBeads', None)
    else Ok (rodBeads', Some nextIndex).

(** What a run of the loop leaves behind: the rod, and (to state which
    beads the walk reaches) the indices the loop body ran at, in order. *)
Record Walk : Type := mkWalk {
  beads : list Q;
  visited : list Z
}.

(** [while (index >= 0 && index < rodBeads.length) { ... }] with a bound
    on the number of iterations. *)
Fixpoint walk_loop (fuel : nat) (L : Layout) (dx : Q) (direction : Z)
    (rodBeads : list Q) (index : Z) (seen : list Z) : result Walk :=
  if in_rod rodBeads index then
    match fuel with
    | O => OutOfFuel
    | S fuel' =>
        r ← walk_body L dx direction rodBeads index;
        match r with
        | (rodBeads', None) =>
            Ok (mkWalk rodBeads' (seen ++ [index]))
        | (rodBeads', Some nextIndex) =>
            walk_loop fuel' L dx direction rodBeads' nextIndex
                      (seen ++ [index])
        end
    end
  else Ok (mkWalk rodBeads seen).

(** The walk of [onUpdate] for the bead [thisIndex] of a rod and the
    increment [dx] (lines 145-189). *)
Definition onUpdate_walk (L : Layout) (dx : Q) (thisIndex : Z)
    (rodBeads : list Q) : result Walk :=
  walk_loop (length rodBeads) L dx (direction_of dx) rodBeads thisIndex [].

(** The state a bead's gesture works on. *)
Record Gesture : Type := mkGesture {
  lastTranslationX : Q;
  rod : list Q
}.

(** [onUpdate(e)]:
    [dx = e.translationX - lastTranslationX.value], then the walk. *)
Definition onUpdate (L : Layout) (thisIndex : Z) (translationX : Q)
    (g : Gesture) : result Gesture :=
  let dx := translationX - lastTranslationX g in
  w ← onUpdate_walk L dx thisIndex (rod g);
  Ok (mkGesture translationX (beads w)).

(** *** The invariants of the data model *)

(** No overlap: [position[i] + beadWidth + spacing <= position[i+1]]. *)
Definition non_overlap (L : Layout) (rodBeads : list Q) : Prop :=
  forall (i : nat) (a b : Q),
    rodBeads !! i = Some a -> rodBeads !! S i = Some b ->
    a + beadWidth L + beadSpacing <= b.

(** Track bounds: [0 <= position[i] <= availableWidth - beadWidth]. *)
Definition in_bounds (L : Layout) (rodBeads : list Q) : Prop :=
  forall (i : nat) (a : Q),
    rodBeads !! i = Some a -> 0 <= a /\ a <= availableWidth L - beadWidth L.

(** The same two invariants as checks that compute. *)
Fixpoint non_overlapb (L : Layout) (rodBeads : list Q) : bool :=
  match rodBeads with
  | a :: (b :: _) as rest =>
      Qleb (a + beadWidth L + beadSpacing) b && non_overlapb L rest
  | _ => true
  end.

Definition in_boundsb (L : Layout) (rodBeads : list Q) : bool :=
  forallb (fun a => Qleb 0 a && Qleb a (availableWidth L - beadWidth L))
          rodBeads.

(** Two rods hold the same positions. *)
Definition same_positions (r1 r2 : list Q) : Prop := Forall2 Qeq r1 r2.

(** *** The loop as a relation

    [walk_run L dx d rodBeads index rodBeads' vs]: entered with
    [rodBeads] and [index], the [while] loop ends with [rodBeads'] after
    running its body at the indices [vs]. *)
Inductive walk_run (L : Layout) (dx : Q) (direction : Z)
    : list Q -> Z -> list Q -> list Z -> Prop :=
| run_exit rodBeads index :
    in_rod rodBeads index = false ->
    walk_run L dx direction rodBeads index rodBeads []
| run_break rodBeads index rodBeads' :
    in_rod rodBeads index = true ->
    walk_body L dx direction rodBeads index = Ok (rodBeads', None) ->
    walk_run L dx direction rodBeads index rodBeads' [index]
| run_next rodBeads index rodBeads1 nextIndex rodBeads' vs :
    in_rod rodBeads index = true ->
    walk_body L dx direction rodBeads index
      = Ok (rodBeads1, Some nextIndex) ->
    walk_run L dx direction rodBeads1 nextIndex rodBeads' vs ->
    walk_run L dx direction rodBeads index rodBeads' (index :: vs).

(** The value of the neighbour ahead as the loop body reads it. *)
Definition neighbour (rodBeads : list Q) (nextIndex : Z) : option Q :=
  if in_rod rodBeads nextIndex then js_get rodBeads nextIndex else None.

(** The indices [index], [index + direction], ... ([n] of them). *)
Definition run_from (index direction : Z) (n : nat) : list Z :=
  map (fun k : nat => (index + Z.of_nat k * direction)%Z) (seq 0 n).

(** *** Notions the statements below use *)

(** The two invariants together. *)
Definition rod_inv (L : Layout) (rodBeads : list Q) : Prop :=
  non_overlap L rodBeads /\ in_bounds L rodBeads.

(** [direction] is the one [onUpdate] computes from [dx]. *)
Definition dir_agrees (dx : Q) (direction : Z) : Prop :=
  (direction = 1%Z /\ 0 < dx) \/ (direction = (-1)%Z /\ dx <= 0).

(** The number of iterations still possible from [index]. *)
Definition steps_left (direction : Z) (len : nat) (index : Z) : nat :=
  if (0 <? direction)%Z then Z.to_nat (Z.of_nat len - index)
  else Z.to_nat (index + 1).

(** The bead at [p] does not press on the neighbour ahead at [nx]. *)
Definition no_contact (L : Layout) (direction : Z) (p nx : Q) : Prop :=
  if (0 <? direction)%Z then p + beadUnit L <= nx else nx + beadUnit L <= p.

(** Every bead of [after] is the bead of [before] moved by the same
    amount. *)
Definition moved_together (before after : list Q) : Prop :=
  exists m : Q, Forall2 (fun p q => q == p + m) before after.

(** The reading of the walk in which a downstream bead moves only as far
    as contact with the bead behind it requires: a visited bead other
    than the dragged one, that the bead behind it does not reach, stays
    where it was. *)
Definition downstream_moves_by_contact_only (L : Layout) (dx : Q)
    (thisIndex : Z) (rodBeads : list Q) : Prop :=
  forall (w : Walk) (j : Z) (before after behind : Q),
    onUpdate_walk L dx thisIndex rodBeads = Ok w ->
    j ∈ visited w -> j <> thisIndex ->
    rodBeads !! Z.to_nat j = Some before ->
    beads w !! Z.to_nat j = Some after ->
    beads w !! Z.to_nat (j - direction_of dx) = Some behind ->
    no_contact L (direction_of dx) behind before ->
    after == before.

(** The reading of the walk in which it halts at the first bead that is
    under no contact pressure: when a committed bead does not press on
    its neighbour ahead, the loop does not go on to that neighbour. *)
Definition halts_without_pressure (L : Layout) (dx : Q)
    (thisIndex : Z) (rodBeads : list Q) : Prop :=
  forall (w : Walk) (j : Z) (p nx : Q),
    onUpdate_walk L dx thisIndex rodBeads = Ok w ->
    j ∈ visited w ->
    beads w !! Z.to_nat j = Some p ->
    rodBeads !! Z.to_nat (j + direction_of dx) = Some nx ->
    no_contact L (direction_of dx) p nx ->
    (j + direction_of dx)%Z ∉ visited w.

(** *** The gesture around the walk *)

(** A run of [onUpdate] events of one gesture, with the [translationX] of
    each event in order. *)
Fixpoint onUpdates (L : Layout) (thisIndex : Z) (events : list Q)
    (g : Gesture) : result Gesture :=
  match events with
  | [] => Ok g
  | translationX :: rest =>
      g' ← onUpdate L thisIndex translationX g;
      onUpdates L thisIndex rest g'
  end.

(** What the callbacks of one bead's pan gesture work on:
    [isDragging], the shared values with [lastTranslationX], and the
    dictionary [lastBeadPositionRef.current]. *)
Record BeadState : Type := mkBeadState {
  isDragging : bool;
  gesture : Gesture;
  lastBeadPositionRef : gmap string Q
}.

(** [onBegin] (lines 136-140); [bead.sharedX] is the shared value of the
    rod at [bead.index]. *)
Definition onBegin (thisIndex : Z) (beadKey : string) (s : BeadState)
    : result BeadState :=
  x ← js_read (rod (gesture s)) thisIndex;
  Ok (mkBeadState true
        (mkGesture 0 (rod (gesture s)))
        (<[beadKey := x]> (lastBeadPositionRef s))).

(** [onUpdate] on the state of the bead. *)
Definition onUpdate_bead (L : Layout) (thisIndex : Z) (translationX : Q)
    (s : BeadState) : result BeadState :=
  g ← onUpdate L thisIndex translationX (gesture s);
  Ok (mkBeadState (isDragging s) g (lastBeadPositionRef s)).

(** [Math.abs(finalPosition - initialPosition) > 1]; with
    [initialPosition] undefined the difference is [NaN] and the test
    fails. *)
Definition moved_enough (finalPosition : Q) (initialPosition : option Q)
    : bool :=
  match initialPosition with
  | Some x => Qltb 1 (Qabs (finalPosition - x))
  | None => false
  end.

(** [onFinalize] (lines 191-204): the state it leaves and whether
    [playBeadSound] is called. *)
Definition onFinalize (thisIndex : Z) (beadKey : string) (s : BeadState)
    : result (BeadState * bool) :=
  finalPosition ← js_read (rod (gesture s)) thisIndex;
  let initialPosition := lastBeadPositionRef s !! beadKey in
  Ok (mkBeadState false
        (mkGesture 0 (rod (gesture s)))
        (lastBeadPositionRef s),
      moved_enough finalPosition initialPosition).

(** One whole gesture on a bead: begin, the update events, finalize. *)
Definition pan (L : Layout) (thisIndex : Z) (beadKey : string)
    (events : list Q) (s : BeadState) : result (BeadState * bool) :=
  s1 ← onBegin thisIndex beadKey s;
  g ← onUpdates L thisIndex events (gesture s1);
  onFinalize thisIndex beadKey
    (mkBeadState (isDragging s1) g (lastBeadPositionRef s1)).

(** The increments [dx] that a run of events produces, from the
    [lastTranslationX] it starts with. *)
Fixpoint increments (lastTranslationX : Q) (events : list Q) : list Q :=
  match events with
  | [] => []
  | translationX :: rest =>
      (translationX - lastTranslationX) :: increments translationX rest
  end.

(** The distance dragged: the sum of the sizes of the increments. *)
Definition path_length (dxs : list Q) : Q :=
  foldr (fun dx acc => Qabs dx + acc) 0 dxs.

End Abacus.

(** ** The tally screen *)

Module Tally.

Record TallyData : Type := mkTallyData {
  name : string;
  correct : Z;
  tryAgain : Z;
  total : Z
}.

Inductive ActionType : Type := Correct | TryAgain.

Record Action : Type := mkAction {
  playerIndex : Z;
  type : ActionType;
  timestamp : Z
}.

Definition initialTallyData : TallyData :=
  mkTallyData EmptyString 0 0 0.

(** The two pieces of component state the handlers work on. *)
Record State : Type := mkState {
  players : list TallyData;
  actionHistory : list Action
}.

(** [{ ...initialTallyData, name: 'Player k' }] for the four players. *)
Definition initial_state : State :=
  mkState
    [ mkTallyData "Player 1" (correct initialTallyData)
        (tryAgain initialTallyData) (total initialTallyData);
      mkTallyData "Player 2" (correct initialTallyData)
        (tryAgain initialTallyData) (total initialTallyData);
      mkTallyData "Player 3" (correct initialTallyData)
        (tryAgain initialTallyData) (total initialTallyData);
      mkTallyData "Player 4" (correct initialTallyData)
        (tryAgain initialTallyData) (total initialTallyData) ]
    [].

(** [current.map((player, i) => i === index ? f(player) : player)] *)
Definition map_at (index : Z) (f : TallyData -> TallyData)
    (current : list TallyData) : list TallyData :=
  imap (fun (i : nat) (player : TallyData) =>
          if (Z.of_nat i =? index)%Z then f player else player)
       current.

(** [now] is the value of [Date.now()]. *)
Definition handleCorrect (index : Z) (now : Z) (s : State) : State :=
  mkState
    (map_at index
       (fun player =>
          mkTallyData (name player) (correct player + 1)
            (tryAgain player) (total player + 1))
       (players s))
    (actionHistory s ++ [mkAction index Correct now]).

Definition handleTryAgain (index : Z) (now : Z) (s : State) : State :=
  mkState
    (map_at index
       (fun player =>
          mkTallyData (name player) (correct player)
            (tryAgain player + 1) (total player + 1))
       (players s))
    (actionHistory s ++ [mkAction index TryAgain now]).

(** [{ ...player, [lastAction.type]: player[lastAction.type] - 1,
       total: player.total - 1 }] *)
Definition undo_action (t : ActionType) (player : TallyData) : TallyData :=
  match t with
  | Correct =>
      mkTallyData (name player) (correct player - 1)
        (tryAgain player) (total player - 1)
  | TryAgain =>
      mkTallyData (name player) (correct player)
        (tryAgain player - 1) (total player - 1)
  end.

Definition handleUndo (s : State) : State :=
  if (length (actionHistory s) =? 0)%nat then s
  else
    match actionHistory s !! (length (actionHistory s) - 1)%nat with
    | None => s
    | Some lastAction =>
        mkState
          (map_at (playerIndex lastAction)
             (undo_action (type lastAction)) (players s))
          (* [current.slice(0, -1)] *)
          (take (length (actionHistory s) - 1) (actionHistory s))
    end.

Definition handleReset (s : State) : State :=
  mkState
    (map (fun player => mkTallyData (name player) 0 0 0) (players s))
    [].

(** [total = correct + tryAgain] for every player. *)
Definition consistent (s : State) : Prop :=
  Forall (fun player => total player = (correct player + tryAgain player)%Z)
         (players s).

(** *** The buttons as events *)

Inductive Event : Type :=
| PressCorrect (index now : Z)
| PressTryAgain (index now : Z)
| PressUndo
| PressReset.

Definition press (e : Event) (s : State) : State :=
  match e with
  | PressCorrect index now => handleCorrect index now s
  | PressTryAgain index now => handleTryAgain index now s
  | PressUndo => handleUndo s
  | PressReset => handleReset s
  end.

(** The state after a run of presses, in order. *)
Definition run (events : list Event) (s : State) : State :=
  foldl (fun s e => press e s) s events.

Definition scoring (e : Event) : bool :=
  match e with
  | PressCorrect _ _ | PressTryAgain _ _ => true
  | PressUndo | PressReset => false
  end.

Definition ActionType_eqb (t1 t2 : ActionType) : bool :=
  match t1, t2 with
  | Correct, Correct | TryAgain, TryAgain => true
  | _, _ => false
  end.

(** How many actions of type [t] the history holds for the player
    [index]. *)
Fixpoint count_actions (t : ActionType) (index : Z) (h : list Action) : Z :=
  match h with
  | [] => 0
  | a :: h' =>
      (if ActionType_eqb (type a) t && (playerIndex a =? index)%Z
       then 1 else 0)
      + count_actions t index h'
  end.

(** Every player's two counters are the numbers of actions the history
    holds for that player. *)
Definition tracked (s : State) : Prop :=
  forall (i : nat) (player : TallyData),
    players s !! i = Some player ->
    correct player = count_actions Correct (Z.of_nat i) (actionHistory s) /\
    tryAgain player = count_actions TryAgain (Z.of_nat i) (actionHistory s).

(** *** The number of players *)

Definition adjustPlayerCount (increment : bool) (playerCount : Z) : Z :=
  if increment && (playerCount <? 4)%Z then (playerCount + 1)%Z
  else if negb increment && (1 <? playerCount)%Z then (playerCount - 1)%Z
  else playerCount.

(** *** Accuracy *)

(** [Math.round]: the nearest integer, a half going up.  As for the bead
    positions, the division and the product before it are exact. *)
Definition Math_round (x : Q) : Z := Qfloor (x + (1 # 2)).

Definition calculateAccuracy (correct total : Z) : Z :=
  if (total =? 0)%Z then 0%Z
  else Math_round (inject_Z correct / inject_Z total * 100).

(** *** Tally marks *)

(** One [tallyGroup] view: how many [tallyMark] views it holds and
    whether it holds the [tallyMarkDiagonal] view. *)
Record TallyGroup : Type := mkTallyGroup {
  marks : nat;
  diagonal : bool
}.

(** [renderTallyMarks]: the groups pushed to [marks], in order. *)
Definition renderTallyMarks (total : Z) : list TallyGroup :=
  let groups := (total / 5)%Z in
  let remainder := Z.rem total 5 in
  replicate (Z.to_nat groups) (mkTallyGroup 5 true)
  ++ (if (0 <? remainder)%Z
      then [mkTallyGroup (Z.to_nat remainder) (remainder =? 5)%Z]
      else []).

(** *** The colour picker *)

Record ColorPair : Type := mkColorPair {
  primary : string;
  secondary : string
}.

(** [arr[i] = v] on a copy of an array; [None] is a hole.  A negative
    index names a property, not an element. *)
Definition js_set {A : Type} (arr : list (option A)) (i : Z) (v : A)
    : list (option A) :=
  if (i <? 0)%Z then arr
  else if (i <? Z.of_nat (length arr))%Z
       then <[Z.to_nat i := Some v]> arr
       else arr ++ replicate (Z.to_nat i - length arr) None ++ [Some v].

Record Picker : Type := mkPicker {
  colorPickerVisible : bool;
  selectedPlayerIndex : Z;
  selectedColor : option ColorPair;
  playerColors : list (option ColorPair)
}.

Definition openColorPicker (index : Z) (p : Picker) : Picker :=
  mkPicker true index None (playerColors p).

Definition handleColorSelect (color : ColorPair) (p : Picker) : Picker :=
  mkPicker (colorPickerVisible p) (selectedPlayerIndex p) (Some color)
    (playerColors p).

Definition confirmColorSelection (p : Picker) : Picker :=
  match selectedColor p with
  | Some color =>
      mkPicker false (selectedPlayerIndex p) None
        (js_set (playerColors p) (selectedPlayerIndex p) color)
  | None => p
  end.

(** *** Lighter colours *)

(** [colorLuminance] between [parseInt] and [toString]: from the number
    parsed from the colour to the number that is printed in base 16. *)
Definition lighten_channel (c : Z) (lum : Q) : Z :=
  Math_round (Qmin (Qmax 0 (inject_Z c + inject_Z c * lum)) 255).

Definition colorLuminance_number (rgb : Z) (lum : Q) : Z :=
  let r := Z.land (Z.shiftr rgb 16) 255 in
  let g := Z.land (Z.shiftr rgb 8) 255 in
  let b := Z.land rgb 255 in
  let r := lighten_channel r lum in
  let g := lighten_channel g lum in
  let b := lighten_channel b lum in
  (Z.shiftl 1 24 + Z.shiftl r 16 + Z.shiftl g 8 + b)%Z.

End Tally.

(** * Proofs *)

Import Abacus.

(** ** Rational comparisons *)

Lemma Qltb_true (a b : Q) : Qltb a b = true <-> a < b.
Proof.
  unfold Qltb. rewrite negb_true_iff, <- not_true_iff_false, Qle_bool_iff.
  split; [apply Qnot_le_lt | apply Qlt_not_le].
Qed.

Lemma Qltb_false (a b : Q) : Qltb a b = false <-> b <= a.
Proof.
  unfold Qltb. rewrite negb_false_iff. apply Qle_bool_iff.
Qed.

Lemma Qleb_true (a b : Q) : Qleb a b = true <-> a <= b.
Proof. apply Qle_bool_iff. Qed.

Lemma Qleb_false (a b : Q) : Qleb a b = false <-> b < a.
Proof.
  unfold Qleb. rewrite <- not_true_iff_false, Qle_bool_iff.
  split; [apply Qnot_le_lt | apply Qlt_not_le].
Qed.

(** Case analysis on every comparison, [Qmax] and [Qmin] in sight, then
    linear arithmetic. *)
Ltac q_case_cmp :=
  match goal with
  | |- context [Qltb ?a ?b] =>
      let E := fresh "E" in
      destruct (Qltb a b) eqn:E;
      [apply Qltb_true in E | apply Qltb_false in E]
  | |- context [Qleb ?a ?b] =>
      let E := fresh "E" in
      destruct (Qleb a b) eqn:E;
      [apply Qleb_true in E | apply Qleb_false in E]
  end.

Ltac q_minmax :=
  repeat match goal with
  | |- context [Qmin ?a ?b] =>
      let m := fresh "m" in
      let Hm := fresh "Hm" in
      destruct (Q.min_spec a b) as [[? Hm] | [? Hm]];
      revert Hm; generalize (Qmin a b); intros m Hm
  | |- context [Qmax ?a ?b] =>
      let m := fresh "m" in
      let Hm := fresh "Hm" in
      destruct (Q.max_spec a b) as [[? Hm] | [? Hm]];
      revert Hm; generalize (Qmax a b); intros m Hm
  end.

Ltac q_solve :=
  unfold overlapResolved, resolve, beadUnit, maxX, minX, beadSpacing in *;
  q_minmax; repeat q_case_cmp; simpl; try lra.

(** ** The committed position *)

Lemma resolve_right (L : Layout) (dx cur : Q) (next : option Q) :
  0 < dx -> 0 <= cur -> cur <= maxX L ->
  match next with Some nx => cur + beadUnit L <= nx | None => True end ->
  cur <= resolve L dx 1 cur next /\
  resolve L dx 1 cur next <= maxX L /\
  match next with
  | Some nx => resolve L dx 1 cur next + beadUnit L <= nx
  | None => True
  end.
Proof.
  intros Hdx H0 Hmax Hnext.
  destruct next as [nx|]; change (0 <? 1)%Z with true; q_solve.
  all: repeat split; lra.
Qed.

Lemma resolve_left (L : Layout) (dx cur : Q) (next : option Q) :
  dx <= 0 -> 0 <= cur -> cur <= maxX L ->
  match next with Some nx => nx + beadUnit L <= cur | None => True end ->
  resolve L dx (-1) cur next <= cur /\
  0 <= resolve L dx (-1) cur next /\
  match next with
  | Some nx => nx + beadUnit L <= resolve L dx (-1) cur next
  | None => True
  end.
Proof.
  intros Hdx H0 Hmax Hnext.
  destruct next as [nx|]; change (0 <? -1)%Z with false; q_solve.
  all: repeat split; lra.
Qed.


(** ** The loop body and the loop *)

Lemma in_rod_true (rodBeads : list Q) (i : Z) :
  in_rod rodBeads i = true <-> (0 <= i < Z.of_nat (length rodBeads))%Z.
Proof. unfold in_rod. rewrite andb_true_iff. lia. Qed.

Lemma in_rod_insert (rodBeads : list Q) (n : nat) (x : Q) (i : Z) :
  in_rod (<[n := x]> rodBeads) i = in_rod rodBeads i.
Proof. unfold in_rod. now rewrite length_insert. Qed.

Lemma js_get_in_rod (rodBeads : list Q) (i : Z) :
  in_rod rodBeads i = true ->
  exists a, rodBeads !! Z.to_nat i = Some a /\ js_get rodBeads i = Some a.
Proof.
  intros H%in_rod_true.
  destruct (lookup_lt_is_Some_2 rodBeads (Z.to_nat i)) as [a Ha]; [lia|].
  exists a. split; [exact Ha|].
  unfold js_get. destruct (Z.leb_spec 0 i); [exact Ha | lia].
Qed.

Lemma neighbour_Some (rodBeads : list Q) (i : Z) (a : Q) :
  neighbour rodBeads i = Some a ->
  (0 <= i)%Z /\ rodBeads !! Z.to_nat i = Some a.
Proof.
  unfold neighbour. destruct (in_rod rodBeads i) eqn:E; [|discriminate].
  apply in_rod_true in E. unfold js_get.
  destruct (Z.leb_spec 0 i); [|lia]. intros Hget. split; [lia | exact Hget].
Qed.

(** What one iteration does, in closed form. *)
Lemma walk_body_spec (L : Layout) (dx : Q) (d : Z) (rodBeads : list Q)
    (index : Z) :
  in_rod rodBeads index = true ->
  exists cur,
    rodBeads !! Z.to_nat index = Some cur /\
    walk_body L dx d rodBeads index =
      Ok (<[Z.to_nat index :=
              resolve L dx d cur (neighbour rodBeads (index + d))]> rodBeads,
          if in_rod rodBeads (index + d) &&
             negb (overlapResolved L d
                     (resolve L dx d cur (neighbour rodBeads (index + d))))
          then Some (index + d)%Z else None).
Proof.
  intros Hin. destruct (js_get_in_rod _ _ Hin) as (cur & Hcur & Hget).
  exists cur. split; [exact Hcur|].
  unfold walk_body, js_read, neighbour. rewrite Hget. cbn.
  destruct (in_rod rodBeads (index + d)) eqn:Hnext; cbn.
  - destruct (js_get_in_rod _ _ Hnext) as (nx & _ & ->). cbn.
    destruct (overlapResolved _ _ _); reflexivity.
  - reflexivity.
Qed.

Lemma walk_loop_run (L : Layout) (dx : Q) (d : Z) :
  d = 1%Z \/ d = (-1)%Z ->
  forall (fuel : nat) (rodBeads : list Q) (index : Z) (seen : list Z),
    (steps_left d (length rodBeads) index <= fuel)%nat ->
    exists rodBeads' vs,
      walk_loop fuel L dx d rodBeads index seen
        = Ok (mkWalk rodBeads' (seen ++ vs)) /\
      walk_run L dx d rodBeads index rodBeads' vs.
Proof.
  intros Hd fuel.
  induction fuel as [|fuel IH]; intros rodBeads index seen Hfuel.
  - destruct (in_rod rodBeads index) eqn:Hin.
    + apply in_rod_true in Hin. unfold steps_left in Hfuel.
      destruct Hd as [-> | ->]; cbn in Hfuel; lia.
    + exists rodBeads, []. cbn. rewrite Hin, app_nil_r.
      split; [reflexivity | now constructor].
  - destruct (in_rod rodBeads index) eqn:Hin.
    + destruct (walk_body_spec L dx d rodBeads index Hin)
        as (cur & Hcur & Hbody).
      cbn [walk_loop]. rewrite Hin, Hbody. cbn.
      set (p := resolve L dx d cur (neighbour rodBeads (index + d))) in *.
      destruct (in_rod rodBeads (index + d) && negb (overlapResolved L d p))
        eqn:Hgo.
      * destruct (IH (<[Z.to_nat index := p]> rodBeads) (index + d)%Z
                     (seen ++ [index])) as (rodBeads' & vs & Hloop & Hrun).
        { rewrite length_insert. apply in_rod_true in Hin.
          unfold steps_left in *. destruct Hd as [-> | ->]; cbn in *; lia. }
        exists rodBeads', (index :: vs). split.
        -- rewrite Hloop. now rewrite <- app_assoc.
        -- eapply run_next; eauto.
      * exists (<[Z.to_nat index := p]> rodBeads), [index].
        split; [reflexivity|].
        now apply run_break.
    + exists rodBeads, []. cbn. rewrite Hin, app_nil_r.
      split; [reflexivity | now constructor].
Qed.

Lemma direction_of_cases (dx : Q) :
  (direction_of dx = 1%Z /\ 0 < dx) \/ (direction_of dx = (-1)%Z /\ dx <= 0).
Proof.
  unfold direction_of. destruct (Qltb 0 dx) eqn:E.
  - left. split; [reflexivity | now apply Qltb_true].
  - right. split; [reflexivity | now apply Qltb_false].
Qed.

(** The walk always returns, and what it returns is a run of the loop. *)
Lemma onUpdate_walk_run (L : Layout) (dx : Q) (thisIndex : Z)
    (rodBeads : list Q) :
  exists rodBeads' vs,
    onUpdate_walk L dx thisIndex rodBeads = Ok (mkWalk rodBeads' vs) /\
    walk_run L dx (direction_of dx) rodBeads thisIndex rodBeads' vs.
Proof.
  unfold onUpdate_walk.
  destruct (in_rod rodBeads thisIndex) eqn:Hin.
  - destruct (walk_loop_run L dx (direction_of dx)) with
      (fuel := length rodBeads) (rodBeads := rodBeads) (index := thisIndex)
      (seen := @nil Z) as (r & vs & H1 & H2).
    + destruct (direction_of_cases dx) as [[-> _] | [-> _]]; auto.
    + apply in_rod_true in Hin. unfold steps_left.
      destruct (direction_of_cases dx) as [[-> _] | [-> _]]; cbn; lia.
    + exists r, vs. auto.
  - exists rodBeads, []. split; [|now constructor].
    destruct (length rodBeads); cbn; now rewrite Hin.
Qed.

(** ** The invariants along the walk *)

Lemma walk_body_inv (L : Layout) (dx : Q) (d : Z) (rodBeads : list Q)
    (index : Z) (rodBeads1 : list Q) (k : option Z) :
  in_rod rodBeads index = true ->
  walk_body L dx d rodBeads index = Ok (rodBeads1, k) ->
  exists cur,
    rodBeads !! Z.to_nat index = Some cur /\
    rodBeads1 =
      <[Z.to_nat index :=
          resolve L dx d cur (neighbour rodBeads (index + d))]> rodBeads /\
    k = if in_rod rodBeads (index + d) &&
           negb (overlapResolved L d
                   (resolve L dx d cur (neighbour rodBeads (index + d))))
        then Some (index + d)%Z else None.
Proof.
  intros Hin Hbody.
  destruct (walk_body_spec L dx d rodBeads index Hin) as (cur & Hcur & Hspec).
  rewrite Hspec in Hbody. injection Hbody as <- <-. eauto.
Qed.

Lemma neighbour_right (rodBeads : list Q) (index : Z) :
  (0 <= index)%Z ->
  neighbour rodBeads (index + 1) = rodBeads !! S (Z.to_nat index).
Proof.
  intros H0. unfold neighbour, js_get.
  replace (Z.to_nat (index + 1)) with (S (Z.to_nat index)) by lia.
  destruct (in_rod rodBeads (index + 1)) eqn:E.
  - destruct (Z.leb_spec 0 (index + 1)); [reflexivity | lia].
  - symmetry. apply lookup_ge_None. unfold in_rod in E.
    apply andb_false_iff in E. destruct E as [E | E]; lia.
Qed.

Lemma neighbour_left (rodBeads : list Q) (index : Z) :
  in_rod rodBeads index = true ->
  neighbour rodBeads (index + -1) =
    match Z.to_nat index with
    | O => None
    | S n => rodBeads !! n
    end.
Proof.
  intros Hin%in_rod_true. unfold neighbour, js_get.
  destruct (Z.to_nat index) as [|n] eqn:En.
  - assert (index = 0%Z) as -> by lia. reflexivity.
  - replace (Z.to_nat (index + -1)) with n by lia.
    assert (in_rod rodBeads (index + -1) = true) as ->
      by (apply in_rod_true; lia).
    destruct (Z.leb_spec 0 (index + -1)); [reflexivity | lia].
Qed.

(** Raising one position, without reaching the bead after it, keeps the
    two invariants. *)
Lemma rod_inv_insert_right (L : Layout) (rodBeads : list Q) (n : nat)
    (cur p : Q) :
  rod_inv L rodBeads ->
  rodBeads !! n = Some cur ->
  cur <= p -> p <= maxX L ->
  match rodBeads !! S n with
  | Some nx => p + beadUnit L <= nx
  | None => True
  end ->
  rod_inv L (<[n := p]> rodBeads).
Proof.
  intros [Hno Hb] Hcur Hle Hmax Hnext.
  assert (n < length rodBeads)%nat as Hn by (eapply lookup_lt_Some; eauto).
  split.
  - intros i a b Ha Hb'.
    destruct (decide (i = n)) as [-> | Hi].
    + rewrite list_lookup_insert_eq in Ha by exact Hn. injection Ha as <-.
      rewrite list_lookup_insert_ne in Hb' by lia. rewrite Hb' in Hnext.
      unfold beadUnit in Hnext. lra.
    + rewrite list_lookup_insert_ne in Ha by lia.
      destruct (decide (S i = n)) as [<- | Hi'].
      * rewrite list_lookup_insert_eq in Hb' by exact Hn. injection Hb' as <-.
        pose proof (Hno i a cur Ha Hcur). lra.
      * rewrite list_lookup_insert_ne in Hb' by lia. eauto.
  - intros i a Ha.
    destruct (decide (i = n)) as [-> | Hi].
    + rewrite list_lookup_insert_eq in Ha by exact Hn. injection Ha as <-.
      destruct (Hb n cur Hcur). unfold maxX in Hmax. lra.
    + rewrite list_lookup_insert_ne in Ha by lia. eauto.
Qed.

(** Lowering one position, without reaching the bead before it. *)
Lemma rod_inv_insert_left (L : Layout) (rodBeads : list Q) (n : nat)
    (cur p : Q) :
  rod_inv L rodBeads ->
  rodBeads !! n = Some cur ->
  p <= cur -> 0 <= p ->
  match n with
  | O => True
  | S m => match rodBeads !! m with
           | Some nx => nx + beadUnit L <= p
           | None => True
           end
  end ->
  rod_inv L (<[n := p]> rodBeads).
Proof.
  intros [Hno Hb] Hcur Hle Hmin Hnext.
  assert (n < length rodBeads)%nat as Hn by (eapply lookup_lt_Some; eauto).
  split.
  - intros i a b Ha Hb'.
    destruct (decide (i = n)) as [-> | Hi].
    + rewrite list_lookup_insert_eq in Ha by exact Hn. injection Ha as <-.
      rewrite list_lookup_insert_ne in Hb' by lia.
      pose proof (Hno n cur b Hcur Hb'). lra.
    + rewrite list_lookup_insert_ne in Ha by lia.
      destruct (decide (S i = n)) as [<- | Hi'].
      * rewrite list_lookup_insert_eq in Hb' by exact Hn. injection Hb' as <-.
        rewrite Ha in Hnext. unfold beadUnit in Hnext. lra.
      * rewrite list_lookup_insert_ne in Hb' by lia. eauto.
  - intros i a Ha.
    destruct (decide (i = n)) as [-> | Hi].
    + rewrite list_lookup_insert_eq in Ha by exact Hn. injection Ha as <-.
      destruct (Hb n cur Hcur). lra.
    + rewrite list_lookup_insert_ne in Ha by lia. eauto.
Qed.

Lemma walk_body_preserves (L : Layout) (dx : Q) (d : Z) (rodBeads : list Q)
    (index : Z) (rodBeads1 : list Q) (k : option Z) :
  dir_agrees dx d ->
  rod_inv L rodBeads ->
  in_rod rodBeads index = true ->
  walk_body L dx d rodBeads index = Ok (rodBeads1, k) ->
  rod_inv L rodBeads1.
Proof.
  intros Hd Hinv Hin Hbody.
  destruct (walk_body_inv _ _ _ _ _ _ _ Hin Hbody) as (cur & Hcur & -> & _).
  pose proof Hin as Hrange%in_rod_true.
  destruct Hinv as [Hno Hb]. destruct (Hb _ _ Hcur) as [H0 Hmax].
  destruct Hd as [[-> Hdx] | [-> Hdx]].
  - rewrite neighbour_right by lia.
    destruct (resolve_right L dx cur (rodBeads !! S (Z.to_nat index)))
      as (H1 & H2 & H3); try assumption.
    { destruct (rodBeads !! S (Z.to_nat index)) as [nx|] eqn:Hnx; [|exact I].
      pose proof (Hno _ _ _ Hcur Hnx). unfold beadUnit. lra. }
    eapply rod_inv_insert_right; eauto. split; assumption.
  - rewrite neighbour_left by exact Hin.
    set (next := match Z.to_nat index with
                 | O => None
                 | S n => rodBeads !! n
                 end).
    destruct (resolve_left L dx cur next) as (H1 & H2 & H3); try assumption.
    { subst next. destruct (Z.to_nat index) as [|n] eqn:En; [exact I|].
      destruct (rodBeads !! n) as [nx|] eqn:Hnx; [|exact I].
      pose proof (Hno _ _ _ Hnx Hcur). unfold beadUnit. lra. }
    eapply rod_inv_insert_left; eauto; [split; assumption|].
    subst next. destruct (Z.to_nat index) as [|n]; [exact I | exact H3].
Qed.

Lemma walk_run_preserves (L : Layout) (dx : Q) (d : Z) (rodBeads : list Q)
    (index : Z) (rodBeads' : list Q) (vs : list Z) :
  dir_agrees dx d ->
  walk_run L dx d rodBeads index rodBeads' vs ->
  rod_inv L rodBeads -> rod_inv L rodBeads'.
Proof.
  intros Hd Hrun.
  induction Hrun as [| ? ? ? Hin Hbody | ? ? ? ? ? ? Hin Hbody _ IH];
    intros Hinv.
  - exact Hinv.
  - eapply walk_body_preserves; eauto.
  - apply IH. eapply walk_body_preserves; eauto.
Qed.

(** ** Which beads the walk visits and what it writes *)

Lemma run_from_S (index d : Z) (n : nat) :
  run_from index d (S n) = index :: run_from (index + d) d n.
Proof.
  unfold run_from. cbn [seq map]. f_equal; [lia|].
  rewrite <- seq_shift, map_map. apply map_ext. intros k. lia.
Qed.

Lemma elem_of_run_from (index d : Z) (n : nat) (j : Z) :
  j ∈ run_from index d n <->
  exists k : nat, (k < n)%nat /\ j = (index + Z.of_nat k * d)%Z.
Proof.
  unfold run_from. rewrite list_elem_of_In, in_map_iff. split.
  - intros (k & <- & Hk%in_seq). exists k. split; [lia | reflexivity].
  - intros (k & Hk & ->). exists k. split; [reflexivity | apply in_seq; lia].
Qed.

Lemma neighbour_insert_ne (rodBeads : list Q) (index i : Z) (p : Q) :
  (0 <= index)%Z -> i <> index ->
  neighbour (<[Z.to_nat index := p]> rodBeads) i = neighbour rodBeads i.
Proof.
  intros H0 Hne. unfold neighbour. rewrite in_rod_insert.
  destruct (in_rod rodBeads i) eqn:E; [|reflexivity].
  apply in_rod_true in E. unfold js_get.
  destruct (Z.leb_spec 0 i); [|reflexivity].
  apply list_lookup_insert_ne. lia.
Qed.

(** A run of the loop from an index inside the rod starts at that index. *)
Lemma walk_run_head (L : Layout) (dx : Q) (d : Z) (rodBeads : list Q)
    (index : Z) (rodBeads' : list Q) (vs : list Z) :
  walk_run L dx d rodBeads index rodBeads' vs ->
  in_rod rodBeads index = true ->
  exists vs', vs = index :: vs'.
Proof.
  intros Hrun Hin. destruct Hrun; [congruence | eauto | eauto].
Qed.

(** Shape of the visited indices and frame of the positions. *)
Lemma walk_run_shape (L : Layout) (dx : Q) (d : Z) (rodBeads : list Q)
    (index : Z) (rodBeads' : list Q) (vs : list Z) :
  walk_run L dx d rodBeads index rodBeads' vs ->
  vs = run_from index d (length vs) /\
  length rodBeads' = length rodBeads /\
  Forall (fun j => in_rod rodBeads j = true) vs /\
  (forall j : nat, Z.of_nat j ∉ vs -> rodBeads' !! j = rodBeads !! j).
Proof.
  intros Hrun.
  induction Hrun as [| ? ? ? Hin Hbody | ? ? ? ? ? ? Hin Hbody _ IH].
  - repeat split; auto.
  - destruct (walk_body_inv _ _ _ _ _ _ _ Hin Hbody) as (cur & Hcur & -> & _).
    apply in_rod_true in Hin as Hrange.
    repeat split.
    + cbn. unfold run_from. cbn. f_equal. lia.
    + apply length_insert.
    + repeat constructor. exact Hin.
    + intros j Hj. apply list_lookup_insert_ne.
      intros Heq. apply Hj. rewrite <- Heq. rewrite Z2Nat.id by lia. left.
  - destruct (walk_body_inv _ _ _ _ _ _ _ Hin Hbody) as (cur & Hcur & -> & Hk).
    apply in_rod_true in Hin as Hrange.
    assert (nextIndex = (index + d)%Z) as ->
      by (destruct (_ && _); congruence).
    destruct IH as (IH1 & IH2 & IH3 & IH4).
    repeat split.
    + cbn [length]. rewrite run_from_S. f_equal. exact IH1.
    + now rewrite IH2, length_insert.
    + constructor; [exact Hin|].
      eapply Forall_impl; [exact IH3|]. intros j. cbn.
      now rewrite in_rod_insert.
    + intros j Hj. rewrite IH4.
      * apply list_lookup_insert_ne.
        intros Heq. apply Hj. rewrite <- Heq. rewrite Z2Nat.id by lia. left.
      * intros Hin'. apply Hj. now right.
Qed.

(** With a step of one bead, the indices after the first are strictly
    ahead of it. *)
Lemma run_from_ahead (index d : Z) (n : nat) (j : Z) :
  d = 1%Z \/ d = (-1)%Z ->
  j ∈ run_from (index + d) d n ->
  j <> index /\ (j + d)%Z <> index.
Proof.
  intros Hd (k & _ & ->)%elem_of_run_from. destruct Hd as [-> | ->]; lia.
Qed.

Lemma run_from_NoDup (index d : Z) (n : nat) :
  d = 1%Z \/ d = (-1)%Z -> NoDup (run_from index d n).
Proof.
  intros Hd. revert index. induction n as [|n IH]; intros index.
  - constructor.
  - rewrite run_from_S. constructor; [|apply IH].
    intros Hin. now apply (run_from_ahead index d n index Hd) in Hin.
Qed.

(** Every visited bead is committed once, from the positions the rod had
    when the loop was entered. *)
Lemma walk_run_values (L : Layout) (dx : Q) (d : Z) (rodBeads : list Q)
    (index : Z) (rodBeads' : list Q) (vs : list Z) :
  d = 1%Z \/ d = (-1)%Z ->
  walk_run L dx d rodBeads index rodBeads' vs ->
  forall j, j ∈ vs ->
    exists cur,
      rodBeads !! Z.to_nat j = Some cur /\
      rodBeads' !! Z.to_nat j =
        Some (resolve L dx d cur (neighbour rodBeads (j + d))).
Proof.
  intros Hd Hrun.
  induction Hrun as [| ? ? ? Hin Hbody | ? ? ? ? ? ? Hin Hbody Hrun IH];
    intros j Hj.
  - inversion Hj.
  - destruct (walk_body_inv _ _ _ _ _ _ _ Hin Hbody) as (cur & Hcur & -> & _).
    apply list_elem_of_singleton in Hj as ->.
    exists cur. split; [exact Hcur|].
    apply list_lookup_insert_eq. eapply lookup_lt_Some; eauto.
  - destruct (walk_body_inv _ _ _ _ _ _ _ Hin Hbody) as (cur & Hcur & -> & Hk).
    apply in_rod_true in Hin as Hrange.
    assert (nextIndex = (index + d)%Z) as ->
      by (destruct (_ && _); congruence).
    destruct (walk_run_shape _ _ _ _ _ _ _ Hrun) as (Hvs & _ & Hall & Hframe).
    apply elem_of_cons in Hj as [-> | Hj].
    + exists cur. split; [exact Hcur|].
      rewrite Hframe.
      * apply list_lookup_insert_eq. eapply lookup_lt_Some; eauto.
      * rewrite Z2Nat.id by lia. rewrite Hvs. intros Hin'.
        now apply (run_from_ahead index d _ index Hd) in Hin'.
    + destruct (IH j Hj) as (cur1 & Hcur1 & Hval).
      assert (j <> index /\ (j + d)%Z <> index) as [Hne1 Hne2]
        by (rewrite Hvs in Hj; eapply run_from_ahead; eauto).
      assert (0 <= j)%Z as Hj0.
      { rewrite Forall_forall in Hall. apply Hall, in_rod_true in Hj.
        lia. }
      rewrite list_lookup_insert_ne in Hcur1 by lia.
      rewrite neighbour_insert_ne in Hval by lia.
      exists cur1. split; assumption.
Qed.

(** From a visited bead the loop goes on to the next one exactly when
    there is a next one and the break test fails. *)
Lemma walk_run_continue (L : Layout) (dx : Q) (d : Z) (rodBeads : list Q)
    (index : Z) (rodBeads' : list Q) (vs : list Z) :
  d = 1%Z \/ d = (-1)%Z ->
  walk_run L dx d rodBeads index rodBeads' vs ->
  forall j cur, j ∈ vs ->
    rodBeads !! Z.to_nat j = Some cur ->
    ((j + d)%Z ∈ vs <->
     in_rod rodBeads (j + d) = true /\
     overlapResolved L d
       (resolve L dx d cur (neighbour rodBeads (j + d))) = false).
Proof.
  intros Hd Hrun.
  induction Hrun as [| ? ? ? Hin Hbody | ? ? ? ? ? ? Hin Hbody Hrun IH];
    intros j c Hj Hc.
  - inversion Hj.
  - destruct (walk_body_inv _ _ _ _ _ _ _ Hin Hbody) as (cur & Hcur & _ & Hk).
    apply list_elem_of_singleton in Hj as ->.
    rewrite Hcur in Hc. injection Hc as <-.
    rewrite list_elem_of_singleton. split.
    + destruct Hd as [-> | ->]; lia.
    + intros [H1 H2]. rewrite H1, H2 in Hk. discriminate.
  - destruct (walk_body_inv _ _ _ _ _ _ _ Hin Hbody) as (cur & Hcur & -> & Hk).
    apply in_rod_true in Hin as Hrange.
    destruct (in_rod rodBeads (index + d)) eqn:Hnext; [|discriminate].
    destruct (overlapResolved L d _) eqn:Hov; [discriminate|].
    cbn in Hk. injection Hk as ->.
    destruct (walk_run_shape _ _ _ _ _ _ _ Hrun) as (Hvs & _ & Hall & _).
    apply elem_of_cons in Hj as [-> | Hj].
    + rewrite Hcur in Hc. injection Hc as <-.
      split; [intros _; split; assumption|]. intros _.
      destruct (walk_run_head _ _ _ _ _ _ _ Hrun) as (vs' & ->).
      { now rewrite in_rod_insert. }
      right. left.
    + assert (j <> index /\ (j + d)%Z <> index) as [Hne1 Hne2]
        by (rewrite Hvs in Hj; eapply run_from_ahead; eauto).
      assert (0 <= j)%Z as Hj0.
      { rewrite Forall_forall in Hall. apply Hall, in_rod_true in Hj.
        lia. }
      specialize (IH j c Hj).
      rewrite list_lookup_insert_ne, neighbour_insert_ne, in_rod_insert
        in IH by lia.
      rewrite <- (IH Hc). rewrite elem_of_cons. split; [|now right].
      intros [Heq | H]; [contradiction | exact H].
Qed.

(** ** The computable checks are sound *)

Lemma non_overlapb_sound (L : Layout) (rodBeads : list Q) :
  non_overlapb L rodBeads = true -> non_overlap L rodBeads.
Proof.
  induction rodBeads as [|a [|b rest] IH]; intros Hb i x y Hx Hy.
  - discriminate.
  - destruct i; discriminate.
  - cbn [non_overlapb] in Hb. apply andb_true_iff in Hb as [Hab Hrest].
    destruct i as [|i].
    + cbn in Hx, Hy. injection Hx as <-. injection Hy as <-.
      now apply Qleb_true.
    + apply (IH Hrest i x y); assumption.
Qed.

Lemma in_boundsb_sound (L : Layout) (rodBeads : list Q) :
  in_boundsb L rodBeads = true -> in_bounds L rodBeads.
Proof.
  unfold in_boundsb. rewrite forallb_forall. intros H i a Ha.
  apply list_elem_of_lookup_2, list_elem_of_In, H in Ha.
  apply andb_true_iff in Ha as [H1 H2].
  split; now apply Qleb_true.
Qed.

(** ** The invariants after a drag update *)

Lemma onUpdate_walk_inv (L : Layout) (dx : Q) (thisIndex : Z)
    (rodBeads : list Q) :
  rod_inv L rodBeads ->
  exists w, onUpdate_walk L dx thisIndex rodBeads = Ok w /\
            rod_inv L (beads w).
Proof.
  intros Hinv.
  destruct (onUpdate_walk_run L dx thisIndex rodBeads) as (r & vs & Hw & Hrun).
  exists (mkWalk r vs). split; [exact Hw|].
  eapply walk_run_preserves; eauto. apply direction_of_cases.
Qed.





(** ** The rod at mount and after a reset *)

Lemma initial_rod_non_overlap (L : Layout) : non_overlap L (initial_rod L).
Proof.
  intros i a b Ha Hb. unfold initial_rod in *. cbn in Ha, Hb.
  do 9 (destruct i as [|i];
         [ cbn in Ha, Hb; injection Ha as <-; injection Hb as <-;
           unfold beadUnit, beadSpacing, inject_Z;
           cbv [Z.of_nat Pos.of_succ_nat Pos.succ];
           lra | ]).
  discriminate.
Qed.

Lemma initial_rod_in_bounds (L : Layout) :
  0 <= beadUnit L -> 9 * beadUnit L <= maxX L -> in_bounds L (initial_rod L).
Proof.
  intros H0 Hfit i a Ha. unfold initial_rod in *. cbn in Ha.
  unfold maxX in Hfit.
  do 10 (destruct i as [|i];
         [ cbn in Ha; injection Ha as <-;
           unfold inject_Z; cbv [Z.of_nat Pos.of_succ_nat Pos.succ]; lra | ]).
  discriminate.
Qed.

(** A window at least 134 wide leaves room for the ten beads. *)
Lemma window_layout_fits (windowWidth : Q) :
  134 <= windowWidth ->
  0 <= beadUnit (window_layout windowWidth) /\
  9 * beadUnit (window_layout windowWidth) <= maxX (window_layout windowWidth).
Proof.
  intros Hw. unfold beadUnit, maxX, window_layout, beadSpacing, rodHeight.
  cbn [availableWidth beadWidth].
  set (aw := abacusWidth windowWidth - 48).
  assert (54 <= aw) as Haw.
  { subst aw. unfold abacusWidth. q_minmax; lra. }
  assert (aw / (inject_Z (Z.of_nat BEADS_PER_ROD) * (3 # 2)) == aw * (1 # 15))
    as Hdiv by (unfold BEADS_PER_ROD; field).
  revert Hdiv.
  generalize (aw / (inject_Z (Z.of_nat BEADS_PER_ROD) * (3 # 2))).
  intros q Hq. q_minmax; lra.
Qed.

Lemma initial_rod_inv (windowWidth : Q) :
  134 <= windowWidth ->
  rod_inv (window_layout windowWidth)
          (initial_rod (window_layout windowWidth)).
Proof.
  intros Hw. destruct (window_layout_fits windowWidth Hw).
  split; [apply initial_rod_non_overlap | now apply initial_rod_in_bounds].
Qed.

(** The handler itself: it returns, records the translation and keeps the
    invariants of the rod. *)
Lemma onUpdate_keeps_inv (L : Layout) (thisIndex : Z) (translationX : Q)
    (g : Gesture) :
  rod_inv L (rod g) ->
  exists g', onUpdate L thisIndex translationX g = Ok g' /\
             lastTranslationX g' = translationX /\
             rod_inv L (rod g').
Proof.
  intros Hinv. unfold onUpdate.
  destruct (onUpdate_walk_inv L (translationX - lastTranslationX g)
              thisIndex (rod g) Hinv) as (w & -> & Hw).
  exists (mkGesture translationX (beads w)). cbn. auto.
Qed.

Lemma resetAbacus_rods (L : Layout) (rods : list (list Q)) :
  Forall (fun rodBeads => length rodBeads = BEADS_PER_ROD) rods ->
  Forall (fun rodBeads => rodBeads = initial_rod L) (resetAbacus L rods).
Proof.
  intros Hall. unfold resetAbacus. apply Forall_fmap.
  eapply Forall_impl; [exact Hall|]. cbn. intros r Hr.
  do 11 (destruct r as [|? r]; try discriminate). reflexivity.
Qed.

(** ** The shape of a drag update *)

Lemma elem_of_run_from_range (index d : Z) (n : nat) (j : Z) :
  d = 1%Z \/ d = (-1)%Z ->
  j ∈ run_from index d n -> (0 <= (j - index) * d < Z.of_nat n)%Z.
Proof.
  intros Hd (k & Hk & ->)%elem_of_run_from. destruct Hd as [-> | ->]; lia.
Qed.

Lemma direction_of_unit (dx : Q) :
  direction_of dx = 1%Z \/ direction_of dx = (-1)%Z.
Proof. destruct (direction_of_cases dx) as [[-> _] | [-> _]]; auto. Qed.

(** C7: a drag update returns; the beads it visits are the contiguous run
    [thisIndex], [thisIndex + direction], ... of some length [n]; the rod
    keeps its length, and every bead outside that run (on the other side
    of [thisIndex], or past the bead where the walk stopped) keeps its
    position. *)
Theorem drag_update_frame (L : Layout) (dx : Q) (thisIndex : Z)
    (rodBeads : list Q) :
  exists (w : Walk) (n : nat),
    onUpdate_walk L dx thisIndex rodBeads = Ok w /\
    visited w = run_from thisIndex (direction_of dx) n /\
    length (beads w) = length rodBeads /\
    forall j : nat,
      ~ (0 <= (Z.of_nat j - thisIndex) * direction_of dx < Z.of_nat n)%Z ->
      beads w !! j = rodBeads !! j.
Proof.
  destruct (onUpdate_walk_run L dx thisIndex rodBeads) as (r & vs & Hw & Hrun).
  destruct (walk_run_shape _ _ _ _ _ _ _ Hrun) as (Hvs & Hlen & _ & Hframe).
  exists (mkWalk r vs), (length vs). cbn.
  repeat split; try assumption.
  intros j Hj. apply Hframe. rewrite Hvs. intros Hin. apply Hj.
  eapply elem_of_run_from_range; eauto. apply direction_of_unit.
Qed.

(** ** What a drag update writes *)

(** C4 (as the code has it): a drag update returns, and every bead it
    visits, the dragged one and each bead downstream alike, ends at
    [resolve] of its own position before the update: that position plus
    the raw [dx], clamped to the track, and held back to touch the
    neighbour ahead where that neighbour was before the update. *)
Theorem drag_update_adds_dx_to_every_visited_bead (L : Layout) (dx : Q)
    (thisIndex : Z) (rodBeads : list Q) :
  exists w : Walk,
    onUpdate_walk L dx thisIndex rodBeads = Ok w /\
    forall j : Z, j ∈ visited w ->
      exists cur : Q,
        rodBeads !! Z.to_nat j = Some cur /\
        beads w !! Z.to_nat j =
          Some (resolve L dx (direction_of dx) cur
                  (neighbour rodBeads (j + direction_of dx))).
Proof.
  destruct (onUpdate_walk_run L dx thisIndex rodBeads) as (r & vs & Hw & Hrun).
  exists (mkWalk r vs). split; [exact Hw|]. cbn.
  eapply walk_run_values; eauto. apply direction_of_unit.
Qed.

(** C4 fails as stated: in a window 1080 wide (bead width 40, track 952),
    on the rod [0; 100; 200] a drag of bead 0 by 5 moves bead 1 from 100
    to 105 although bead 0, now at 5, does not reach it. *)
Lemma downstream_bead_moves_without_contact :
  ~ downstream_moves_by_contact_only (window_layout 1080) 5 0 [0; 100; 200].
Proof.
  intros H.
  specialize (H (mkWalk [5; 105; 205] [0; 1; 2]%Z) 1%Z 100 105 5).
  assert (105 == 100) as Habs.
  { apply H; try reflexivity.
    - right. left.
    - discriminate.
    - vm_compute. discriminate. }
  vm_compute in Habs. discriminate.
Qed.

(** C8 (as the code has it): a drag update returns; no bead index is
    visited twice, the visited indices are indices of the rod and there
    are at most as many as beads; and from a visited bead the walk goes on
    to the next one exactly when there is a next one in the drag direction
    and the break test [overlapResolved] fails on the position just
    committed. *)
Theorem drag_update_terminates (L : Layout) (dx : Q) (thisIndex : Z)
    (rodBeads : list Q) :
  exists w : Walk,
    onUpdate_walk L dx thisIndex rodBeads = Ok w /\
    NoDup (visited w) /\
    (length (visited w) <= length rodBeads)%nat /\
    (forall j : Z, j ∈ visited w -> in_rod rodBeads j = true) /\
    forall (j : Z) (p : Q),
      j ∈ visited w -> beads w !! Z.to_nat j = Some p ->
      ((j + direction_of dx)%Z ∈ visited w <->
       in_rod rodBeads (j + direction_of dx) = true /\
       overlapResolved L (direction_of dx) p = false).
Proof.
  destruct (onUpdate_walk_run L dx thisIndex rodBeads) as (r & vs & Hw & Hrun).
  pose proof (direction_of_unit dx) as Hd.
  destruct (walk_run_shape _ _ _ _ _ _ _ Hrun) as (Hvs & Hlen & Hall & _).
  rewrite Forall_forall in Hall.
  exists (mkWalk r vs). split; [exact Hw|]. cbn.
  split; [rewrite Hvs; now apply run_from_NoDup|].
  split.
  - destruct vs as [|v0 vs'] eqn:Evs; [cbn; lia|]. rewrite <- Evs in *.
    assert (v0 = thisIndex) as ->.
    { rewrite Evs in Hvs. cbn [length] in Hvs. rewrite run_from_S in Hvs.
      congruence. }
    assert (thisIndex ∈ vs) as Hfirst by (rewrite Evs; left).
    assert ((thisIndex + Z.of_nat (length vs - 1) * direction_of dx)%Z ∈ vs)
      as Hlast.
    { rewrite Hvs at 2. apply elem_of_run_from. exists (length vs - 1)%nat.
      split; [rewrite Evs; cbn; lia | reflexivity]. }
    apply Hall, in_rod_true in Hfirst. apply Hall, in_rod_true in Hlast.
    destruct Hd as [Hd | Hd]; rewrite Hd in Hlast; lia.
  - split; [exact Hall|]. intros j p Hj Hp.
    destruct (walk_run_values _ _ _ _ _ _ _ Hd Hrun j Hj)
      as (cur & Hcur & Hval).
    rewrite Hval in Hp. injection Hp as <-.
    eapply walk_run_continue; eauto.
Qed.

(** C8 fails as stated: in a window 1080 wide (bead width 40, track 952),
    on the rod [0; 100; 200] a drag of bead 0 by 5 leaves bead 0 at 5,
    clear of bead 1 at 100, and the walk still goes on to bead 1. *)
Lemma walk_goes_on_without_pressure :
  ~ halts_without_pressure (window_layout 1080) 5 0 [0; 100; 200].
Proof.
  intros H.
  apply (H (mkWalk [5; 105; 205] [0; 1; 2]%Z) 0%Z 5 100); try reflexivity.
  - left.
  - vm_compute. discriminate.
  - right. left.
Qed.

(** ** Packed beads *)

Lemma direction_of_pos (dx : Q) : 0 < dx -> direction_of dx = 1%Z.
Proof. intros H. unfold direction_of. now apply Qltb_true in H as ->. Qed.

Lemma direction_of_nonpos (dx : Q) : dx <= 0 -> direction_of dx = (-1)%Z.
Proof. intros H. unfold direction_of. now apply Qltb_false in H as ->. Qed.

(** A bead that touches the one ahead of it is held where it is. *)
Lemma resolve_packed (L : Layout) (dx cur nx : Q) :
  0 < dx -> 0 <= cur -> cur <= maxX L -> nx == cur + beadUnit L ->
  resolve L dx 1 cur (Some nx) == cur.
Proof. intros. change (0 <? 1)%Z with true. q_solve. Qed.

(** A bead with no neighbour ahead takes the whole increment, up to the
    track edge. *)
Lemma resolve_free (L : Layout) (dx cur : Q) :
  0 < dx -> 0 <= cur -> cur <= maxX L ->
  resolve L dx 1 cur None == Qmin (cur + dx) (maxX L).
Proof. intros. q_solve. Qed.




(** ** The scenario of ten packed beads *)

(** C5: with bead width 20 and spacing 2 (whatever the track length), on
    the rod [0; 22; 44; ...; 198] one drag update of bead 0 by 500 returns
    and leaves bead 0 at 0. *)
Theorem packed_rod_first_bead_blocked (L : Layout) :
  beadWidth L == 20 ->
  exists (w : Walk) (p : Q),
    onUpdate_walk L 500 0
      [0; 22; 44; 66; 88; 110; 132; 154; 176; 198] = Ok w /\
    beads w !! 0%nat = Some p /\ p == 0.
Proof.
  intros Hbw.
  set (r := [0; 22; 44; 66; 88; 110; 132; 154; 176; 198]).
  destruct (onUpdate_walk_run L 500 0 r) as (r' & vs & Hw & Hrun).
  assert (direction_of 500 = 1%Z) as Hd by reflexivity.
  rewrite Hd in Hrun.
  destruct (walk_run_head _ _ _ _ _ _ _ Hrun eq_refl) as (vs' & ->).
  destruct (walk_run_values L 500 1 r 0 r' (0%Z :: vs')) with (j := 0%Z)
    as (cur & Hcur & Hval); [auto | exact Hrun | left |].
  cbn in Hcur. injection Hcur as <-.
  exists (mkWalk r' (0%Z :: vs')), (resolve L 500 1 0 (neighbour r (0 + 1))).
  split; [exact Hw|]. split; [exact Hval|].
  change (neighbour r (0 + 1)) with (Some 22).
  change (0 <? 1)%Z with true. q_solve.
Qed.

(** The window 380 wide has bead width 20 (track 300), and its rod at
    mount is the rod of the scenario. *)
Lemma packed_rod_first_bead_blocked_witness :
  beadWidth (window_layout 380) == 20 /\
  exists (w : Walk) (p : Q),
    onUpdate_walk (window_layout 380) 500 0
      [0; 22; 44; 66; 88; 110; 132; 154; 176; 198] = Ok w /\
    beads w !! 0%nat = Some p /\ p == 0.
Proof.
  assert (beadWidth (window_layout 380) == 20) as H by reflexivity.
  split; [exact H|].
  exact (packed_rod_first_bead_blocked (window_layout 380) H).
Defined.

(** ** A zero increment *)

Lemma resolve_zero (L : Layout) (dx cur : Q) (next : option Q) :
  dx == 0 -> 0 <= cur -> cur <= maxX L ->
  match next with Some nx => nx + beadUnit L <= cur | None => True end ->
  resolve L dx (-1) cur next == cur.
Proof.
  intros Hdx H0 Hmax Hnext.
  destruct next as [nx|]; change (0 <? -1)%Z with false; q_solve.
Qed.

Lemma same_positions_refl (r : list Q) : same_positions r r.
Proof. induction r; constructor; [reflexivity | assumption]. Qed.

Lemma same_positions_insert (r : list Q) (n : nat) (cur p : Q) :
  r !! n = Some cur -> p == cur -> same_positions (<[n := p]> r) r.
Proof.
  intros Hcur Hp. unfold same_positions.
  rewrite <- (list_insert_id r n cur Hcur) at 2.
  apply Forall2_insert; [apply same_positions_refl | exact Hp].
Qed.

Lemma same_positions_trans (r1 r2 r3 : list Q) :
  same_positions r1 r2 -> same_positions r2 r3 -> same_positions r1 r3.
Proof.
  intros H12. revert r3. induction H12 as [|a b r1 r2 Hab _ IH]; intros r3 H23.
  - inversion H23. constructor.
  - inversion H23 as [|? c ? r3' Hbc Hrest]; subst.
    constructor; [now rewrite Hab | now apply IH].
Qed.

Lemma walk_run_zero (L : Layout) (dx : Q) (rodBeads : list Q) (index : Z)
    (rodBeads' : list Q) (vs : list Z) :
  dx == 0 ->
  walk_run L dx (-1) rodBeads index rodBeads' vs ->
  rod_inv L rodBeads -> same_positions rodBeads' rodBeads.
Proof.
  intros Hdx Hrun.
  assert (dir_agrees dx (-1)) as Hd by (right; split; [reflexivity | lra]).
  assert (forall r i r1 k, rod_inv L r -> in_rod r i = true ->
            walk_body L dx (-1) r i = Ok (r1, k) -> same_positions r1 r)
    as Hstep.
  { intros r i r1 k [Hno Hb] Hin Hbody.
    destruct (walk_body_inv _ _ _ _ _ _ _ Hin Hbody) as (cur & Hcur & -> & _).
    apply same_positions_insert with (cur := cur); [exact Hcur|].
    destruct (Hb _ _ Hcur) as [H0 Hmax].
    apply resolve_zero; try assumption.
    rewrite neighbour_left by exact Hin.
    destruct (Z.to_nat i) as [|n] eqn:En; [exact I|].
    destruct (r !! n) as [nx|] eqn:Hnx; [|exact I].
    pose proof (Hno _ _ _ Hnx Hcur). unfold beadUnit. lra. }
  induction Hrun as [| ? ? ? Hin Hbody | ? ? ? ? ? ? Hin Hbody _ IH];
    intros Hinv.
  - apply same_positions_refl.
  - eapply Hstep; eauto.
  - eapply same_positions_trans.
    + apply IH. eapply walk_body_preserves; eauto.
    + eapply Hstep; eauto.
Qed.



(** ** The tally screen *)

Section TallyProofs.
Import Tally.
Local Open Scope Z_scope.

Lemma map_at_Forall (P : TallyData -> Prop) (index : Z)
    (f : TallyData -> TallyData) (current : list TallyData) :
  (forall player, P player -> P (f player)) ->
  Forall P current -> Forall P (map_at index f current).
Proof.
  intros Hf Hall. unfold map_at.
  apply Forall_lookup. intros i player Hi.
  rewrite list_lookup_imap in Hi.
  destruct (current !! i) as [q|] eqn:Hq; [|discriminate].
  cbn in Hi. injection Hi as <-.
  pose proof (Forall_lookup_1 _ _ _ _ Hall Hq) as HP.
  destruct (Z.of_nat i =? index); auto.
Qed.

(** Applying [g] after [f] at the same index. *)
Lemma map_at_map_at (index : Z) (f g : TallyData -> TallyData)
    (current : list TallyData) :
  (forall player, g (f player) = player) ->
  map_at index g (map_at index f current) = current.
Proof.
  intros Hgf. unfold map_at. apply list_eq. intros i.
  rewrite !list_lookup_imap.
  destruct (current !! i) as [q|]; [|reflexivity]. cbn.
  destruct (Z.of_nat i =? index); [now rewrite Hgf | reflexivity].
Qed.

Lemma handleUndo_last (ps : list TallyData) (h : list Action) (a : Action) :
  handleUndo (mkState ps (h ++ [a])) =
    mkState (map_at (playerIndex a) (undo_action (type a)) ps) h.
Proof.
  unfold handleUndo. cbn [actionHistory players].
  rewrite length_app. cbn [length].
  replace (length h + 1 =? 0)%nat with false
    by (symmetry; apply Nat.eqb_neq; lia).
  replace (length h + 1 - 1)%nat with (length h) by lia.
  rewrite lookup_app_r by lia. rewrite Nat.sub_diag. cbn.
  now rewrite take_app_length.
Qed.

(** C9: the four players start with [total = correct + tryAgain], and
    from a state in which every player satisfies that equation,
    [handleCorrect], [handleTryAgain], [handleUndo] and [handleReset]
    each lead to a state in which every player satisfies it. *)
Theorem tally_total_is_sum (s : State) (index now : Z) :
  consistent s ->
  consistent initial_state /\
  consistent (handleCorrect index now s) /\
  consistent (handleTryAgain index now s) /\
  consistent (handleUndo s) /\
  consistent (handleReset s).
Proof.
  intros Hs. unfold consistent in *.
  split; [repeat constructor|].
  split; [apply map_at_Forall; [cbn; intros; lia | exact Hs]|].
  split; [apply map_at_Forall; [cbn; intros; lia | exact Hs]|].
  split.
  - unfold handleUndo.
    destruct (length (actionHistory s) =? 0)%nat; [exact Hs|].
    destruct (actionHistory s !! _) as [lastAction|]; [|exact Hs].
    cbn [players]. apply map_at_Forall; [|exact Hs].
    intros player Hp. destruct (type lastAction); cbn; lia.
  - cbn [handleReset players]. apply Forall_forall.
    intros player (q & -> & _)%list_elem_of_fmap. reflexivity.
Qed.

Lemma tally_total_is_sum_witness :
  consistent (handleCorrect 0 1000 initial_state) /\
  consistent initial_state /\
  consistent (handleCorrect 1 2000 (handleCorrect 0 1000 initial_state)) /\
  consistent (handleTryAgain 1 2000 (handleCorrect 0 1000 initial_state)) /\
  consistent (handleUndo (handleCorrect 0 1000 initial_state)) /\
  consistent (handleReset (handleCorrect 0 1000 initial_state)).
Proof.
  assert (consistent (handleCorrect 0 1000 initial_state)) as H
    by (repeat constructor).
  split; [exact H|].
  exact (tally_total_is_sum (handleCorrect 0 1000 initial_state) 1 2000 H).
Defined.

(** C10: [handleUndo] right after [handleCorrect] or [handleTryAgain]
    gives back the state before the action, that is every player's
    counters and the action history; with an empty action history
    [handleUndo] changes nothing. *)
Theorem undo_reverses_last_action (ps : list TallyData) (h : list Action)
    (index now : Z) :
  handleUndo (handleCorrect index now (mkState ps h)) = mkState ps h /\
  handleUndo (handleTryAgain index now (mkState ps h)) = mkState ps h /\
  handleUndo (mkState ps []) = mkState ps [].
Proof.
  split; [|split].
  - unfold handleCorrect. cbn [players actionHistory].
    rewrite handleUndo_last. cbn [playerIndex type]. f_equal.
    apply map_at_map_at. intros [n c t tot]. cbn. f_equal; lia.
  - unfold handleTryAgain. cbn [players actionHistory].
    rewrite handleUndo_last. cbn [playerIndex type]. f_equal.
    apply map_at_map_at. intros [n c t tot]. cbn. f_equal; lia.
  - reflexivity.
Qed.

End TallyProofs.

(** * Further properties of the abacus screen *)

(** ** How far one update moves a bead *)

Lemma resolve_right_step (L : Layout) (dx cur : Q) (next : option Q) :
  0 < dx -> 0 <= cur -> cur <= maxX L ->
  match next with Some nx => cur + beadUnit L <= nx | None => True end ->
  cur <= resolve L dx 1 cur next /\ resolve L dx 1 cur next <= cur + dx.
Proof.
  intros Hdx H0 Hmax Hnext.
  destruct next as [nx|]; change (0 <? 1)%Z with true; q_solve.
Qed.

Lemma resolve_left_step (L : Layout) (dx cur : Q) (next : option Q) :
  dx <= 0 -> 0 <= cur -> cur <= maxX L ->
  match next with Some nx => nx + beadUnit L <= cur | None => True end ->
  cur + dx <= resolve L dx (-1) cur next /\ resolve L dx (-1) cur next <= cur.
Proof.
  intros Hdx H0 Hmax Hnext.
  destruct next as [nx|]; change (0 <? -1)%Z with false; q_solve.
Qed.

(** The bead ahead, as the invariants see it. *)
Lemma neighbour_clear_right (L : Layout) (rodBeads : list Q) (index : Z)
    (cur : Q) :
  non_overlap L rodBeads -> (0 <= index)%Z ->
  rodBeads !! Z.to_nat index = Some cur ->
  match neighbour rodBeads (index + 1) with
  | Some nx => cur + beadUnit L <= nx
  | None => True
  end.
Proof.
  intros Hno H0 Hcur. rewrite neighbour_right by exact H0.
  destruct (rodBeads !! S (Z.to_nat index)) as [nx|] eqn:Hnx; [|exact I].
  pose proof (Hno _ _ _ Hcur Hnx). unfold beadUnit. lra.
Qed.

Lemma neighbour_clear_left (L : Layout) (rodBeads : list Q) (index : Z)
    (cur : Q) :
  non_overlap L rodBeads -> in_rod rodBeads index = true ->
  rodBeads !! Z.to_nat index = Some cur ->
  match neighbour rodBeads (index + -1) with
  | Some nx => nx + beadUnit L <= cur
  | None => True
  end.
Proof.
  intros Hno Hin Hcur. rewrite neighbour_left by exact Hin.
  destruct (Z.to_nat index) as [|n] eqn:En; [exact I|].
  destruct (rodBeads !! n) as [nx|] eqn:Hnx; [|exact I].
  pose proof (Hno _ _ _ Hnx Hcur). unfold beadUnit. lra.
Qed.

(** One update, with everything the later statements need: it returns,
    keeps the invariants and the length, and moves each bead in the drag
    direction by at most the increment. *)
Lemma onUpdate_walk_step (L : Layout) (dx : Q) (thisIndex : Z)
    (rodBeads : list Q) :
  rod_inv L rodBeads ->
  exists w : Walk,
    onUpdate_walk L dx thisIndex rodBeads = Ok w /\
    rod_inv L (beads w) /\
    length (beads w) = length rodBeads /\
    forall (j : nat) (a b : Q),
      rodBeads !! j = Some a -> beads w !! j = Some b ->
      (0 < dx -> a <= b /\ b <= a + dx) /\
      (dx <= 0 -> a + dx <= b /\ b <= a).
Proof.
  intros Hinv.
  destruct (onUpdate_walk_run L dx thisIndex rodBeads) as (r & vs & Hw & Hrun).
  pose proof (direction_of_cases dx) as Hd.
  pose proof (direction_of_unit dx) as Hu.
  destruct (walk_run_shape _ _ _ _ _ _ _ Hrun) as (_ & Hlen & Hall & Hframe).
  rewrite Forall_forall in Hall.
  exists (mkWalk r vs). split; [exact Hw|]. cbn [beads].
  split; [eapply walk_run_preserves; eauto|].
  split; [exact Hlen|].
  intros j a b Ha Hb.
  destruct (decide (Z.of_nat j ∈ vs)) as [Hj | Hj].
  - destruct (walk_run_values _ _ _ _ _ _ _ Hu Hrun _ Hj)
      as (cur & Hcur & Hval).
    rewrite Nat2Z.id in Hcur, Hval.
    rewrite Ha in Hcur. injection Hcur as <-.
    rewrite Hb in Hval. injection Hval as ->.
    destruct Hinv as [Hno Hbd]. destruct (Hbd _ _ Ha) as [H0 Hmax].
    pose proof (Hall _ Hj) as Hin.
    destruct Hd as [[-> Hdx] | [-> Hdx]].
    + split; [intros _ | intros; lra].
      apply resolve_right_step; try assumption.
      apply neighbour_clear_right; [assumption | lia |].
      now rewrite Nat2Z.id.
    + split; [intros; lra | intros _].
      apply resolve_left_step; try assumption.
      apply neighbour_clear_left; [assumption | assumption |].
      now rewrite Nat2Z.id.
  - rewrite (Hframe j Hj), Ha in Hb. injection Hb as <-.
    split; intros; lra.
Qed.


(** ** A bead with no neighbour ahead, and a bead with room ahead *)

Lemma walk_run_last (L : Layout) (dx : Q) (d : Z) (rodBeads : list Q)
    (index : Z) (rodBeads' : list Q) (vs : list Z) :
  in_rod rodBeads index = true ->
  in_rod rodBeads (index + d) = false ->
  walk_run L dx d rodBeads index rodBeads' vs ->
  exists cur,
    rodBeads !! Z.to_nat index = Some cur /\
    rodBeads' = <[Z.to_nat index := resolve L dx d cur None]> rodBeads /\
    vs = [index].
Proof.
  intros Hin Hnext Hrun.
  destruct Hrun as [? ? Hout | ? ? ? _ Hbody | ? ? ? ? ? ? _ Hbody _].
  - congruence.
  - destruct (walk_body_inv _ _ _ _ _ _ _ Hin Hbody) as (cur & Hcur & -> & _).
    exists cur. unfold neighbour. rewrite Hnext. auto.
  - destruct (walk_body_inv _ _ _ _ _ _ _ Hin Hbody) as (cur & _ & _ & Hk).
    rewrite Hnext in Hk. discriminate.
Qed.




(** ** A run of update events *)

Lemma Qabs_le_iff (x y : Q) : Qabs x <= y <-> - y <= x /\ x <= y.
Proof. apply Qabs_Qle_condition. Qed.

Lemma path_length_nonneg (dxs : list Q) : 0 <= path_length dxs.
Proof.
  induction dxs as [|dx dxs IH]; cbn; [lra|].
  pose proof (Qabs_nonneg dx). unfold path_length in IH. lra.
Qed.

Lemma last_cons_default {A : Type} (rest : list A) (t d : A) :
  List.last (t :: rest) d = List.last rest t.
Proof.
  revert t d. induction rest as [|x rest IH]; intros t d; [reflexivity|].
  change (List.last (x :: rest) d = List.last (x :: rest) t).
  now rewrite !IH.
Qed.

Lemma onUpdate_step (L : Layout) (thisIndex : Z) (translationX : Q)
    (g : Gesture) :
  rod_inv L (rod g) ->
  exists g' : Gesture,
    onUpdate L thisIndex translationX g = Ok g' /\
    lastTranslationX g' = translationX /\
    rod_inv L (rod g') /\
    length (rod g') = length (rod g) /\
    forall (j : nat) (a b : Q),
      rod g !! j = Some a -> rod g' !! j = Some b ->
      Qabs (b - a) <= Qabs (translationX - lastTranslationX g).
Proof.
  intros Hinv. unfold onUpdate.
  destruct (onUpdate_walk_step L (translationX - lastTranslationX g)
              thisIndex (rod g) Hinv) as (w & -> & Hw & Hlen & Hmove).
  exists (mkGesture translationX (beads w)).
  cbn [mbind result_bind rod lastTranslationX].
  split; [reflexivity|]. split; [reflexivity|].
  split; [exact Hw|]. split; [exact Hlen|].
  intros j a b Ha Hb. destruct (Hmove j a b Ha Hb) as [Hpos Hneg].
  remember (translationX - lastTranslationX g) as dx eqn:Edx. clear Edx.
  apply Qabs_le_iff.
  destruct (Qlt_le_dec 0 dx) as [Hdx | Hdx].
  - specialize (Hpos Hdx).
    pose proof (Qabs_pos dx (Qlt_le_weak _ _ Hdx)) as E. lra.
  - specialize (Hneg Hdx). pose proof (Qabs_neg dx Hdx) as E. lra.
Qed.

Lemma onUpdates_step (L : Layout) (thisIndex : Z) (events : list Q) :
  forall g : Gesture,
    rod_inv L (rod g) ->
    exists g' : Gesture,
      onUpdates L thisIndex events g = Ok g' /\
      lastTranslationX g' = List.last events (lastTranslationX g) /\
      rod_inv L (rod g') /\
      length (rod g') = length (rod g) /\
      forall (j : nat) (a b : Q),
        rod g !! j = Some a -> rod g' !! j = Some b ->
        Qabs (b - a) <= path_length (increments (lastTranslationX g) events).
Proof.
  induction events as [|t rest IH]; intros g Hinv.
  - exists g.
    split; [reflexivity|]. split; [reflexivity|].
    split; [exact Hinv|]. split; [reflexivity|].
    intros j a b Ha Hb. rewrite Ha in Hb. injection Hb as <-.
    apply Qabs_le_iff. cbn [increments path_length foldr]. lra.
  - destruct (onUpdate_step L thisIndex t g Hinv)
      as (g1 & Hg1 & Hlast1 & Hinv1 & Hlen1 & Hmove1).
    destruct (IH g1 Hinv1) as (g' & Hg' & Hlast & Hinv' & Hlen & Hmove).
    exists g'. cbn [onUpdates]. rewrite Hg1.
    cbn [mbind result_bind].
    split; [exact Hg'|].
    split.
    { rewrite Hlast, Hlast1. symmetry. apply last_cons_default. }
    split; [exact Hinv'|].
    split; [congruence|].
    intros j a b Ha Hb.
    destruct (lookup_lt_is_Some_2 (rod g1) j) as [c Hc].
    { rewrite Hlen1. eapply lookup_lt_Some; eauto. }
    specialize (Hmove1 j a c Ha Hc). specialize (Hmove j c b Hc Hb).
    rewrite Hlast1 in Hmove.
    cbn [increments path_length foldr].
    fold (path_length (increments t rest)).
    apply Qabs_le_iff in Hmove1, Hmove.
    pose proof (path_length_nonneg (increments t rest)).
    apply Qabs_le_iff. lra.
Qed.





(** ** The sound at the end of a gesture *)

Lemma js_read_in_rod (rodBeads : list Q) (i : Z) :
  in_rod rodBeads i = true ->
  exists a, rodBeads !! Z.to_nat i = Some a /\ js_read rodBeads i = Ok a.
Proof.
  intros Hin. destruct (js_get_in_rod _ _ Hin) as (a & Ha & Hget).
  exists a. split; [exact Ha|]. unfold js_read. now rewrite Hget.
Qed.




(** ** Reset *)

Lemma resetAbacus_lookup (L : Layout) (rods : list (list Q)) (k : nat) :
  resetAbacus L rods !! k =
    (fun rodBeads : list Q =>
       imap (fun (beadIndex : nat) (_ : Q) =>
               inject_Z (Z.of_nat beadIndex) * beadUnit L) rodBeads)
    <$> rods !! k.
Proof. unfold resetAbacus. apply list_lookup_fmap. Qed.



(** * Further properties of the tally screen *)

Section TallyMore.
Import Tally.
Local Open Scope Z_scope.

(** ** The number of players *)

(** X10: starting from the one player the screen opens with, any run of
    presses on the plus and minus buttons leaves [playerCount] between 1
    and 4, the number of entries of [players]. *)
Theorem player_count_between_1_and_4 (presses : list bool) :
  1 <= foldl (fun playerCount increment =>
                adjustPlayerCount increment playerCount) 1 presses <= 4.
Proof.
  assert (forall pc : Z, 1 <= pc <= 4 ->
            1 <= foldl (fun playerCount increment =>
                          adjustPlayerCount increment playerCount) pc presses
              <= 4) as H.
  { induction presses as [|inc presses IH]; intros pc Hpc; [exact Hpc|].
    cbn [foldl]. apply IH. unfold adjustPlayerCount.
    destruct inc; cbn [andb negb];
      destruct (Z.ltb_spec pc 4); destruct (Z.ltb_spec 1 pc); lia. }
  apply H. lia.
Qed.

(** ** Counters and history *)

Lemma count_actions_app (t : ActionType) (index : Z) (h1 h2 : list Action) :
  count_actions t index (h1 ++ h2) =
    count_actions t index h1 + count_actions t index h2.
Proof.
  induction h1 as [|a h1 IH]; cbn [app count_actions]; [reflexivity|].
  rewrite IH. lia.
Qed.

Lemma count_actions_nonneg (t : ActionType) (index : Z) (h : list Action) :
  0 <= count_actions t index h.
Proof.
  induction h as [|a h IH]; cbn [count_actions]; [lia|].
  destruct (_ && _); lia.
Qed.

Lemma map_at_lookup (index : Z) (f : TallyData -> TallyData)
    (current : list TallyData) (i : nat) :
  map_at index f current !! i =
    (fun player => if Z.of_nat i =? index then f player else player)
    <$> current !! i.
Proof. unfold map_at. apply list_lookup_imap. Qed.

Lemma tracked_score (t : ActionType) (index now : Z) (s : State) :
  tracked s ->
  tracked (match t with
           | Correct => handleCorrect index now s
           | TryAgain => handleTryAgain index now s
           end).
Proof.
  intros Hs i player Hi.
  assert (exists q, players s !! i = Some q /\
            correct player =
              correct q +
              (if ActionType_eqb Correct t && (Z.of_nat i =? index)
               then 1 else 0) /\
            tryAgain player =
              tryAgain q +
              (if ActionType_eqb TryAgain t && (Z.of_nat i =? index)
               then 1 else 0) /\
            actionHistory (match t with
                           | Correct => handleCorrect index now s
                           | TryAgain => handleTryAgain index now s
                           end) = actionHistory s ++ [mkAction index t now])
    as (q & Hq & Hc & Ht & Hh).
  { destruct t; cbn [handleCorrect handleTryAgain players] in Hi;
      rewrite map_at_lookup in Hi;
      destruct (players s !! i) as [q|]; try discriminate;
      cbn in Hi; injection Hi as <-; exists q;
      destruct (Z.of_nat i =? index); cbn; repeat split; lia. }
  destruct (Hs i q Hq) as [Hcq Htq].
  rewrite Hh, !count_actions_app. cbn [count_actions type playerIndex].
  rewrite Hc, Ht, Hcq, Htq.
  rewrite (Z.eqb_sym index (Z.of_nat i)).
  destruct t; cbn [ActionType_eqb andb]; destruct (Z.of_nat i =? index); lia.
Qed.

Lemma tracked_undo (s : State) : tracked s -> tracked (handleUndo s).
Proof.
  destruct s as [ps h]. intros Hs.
  destruct h as [|a0 h0] using rev_ind; [exact Hs|]. clear IHh0.
  rewrite handleUndo_last. intros i player Hi.
  cbn [players actionHistory] in *. rewrite map_at_lookup in Hi.
  destruct (ps !! i) as [q|] eqn:Hq; [|discriminate].
  cbn in Hi. injection Hi as <-.
  destruct (Hs i q Hq) as [Hcq Htq].
  cbn [actionHistory] in Hcq, Htq.
  rewrite !count_actions_app in Hcq, Htq.
  cbn [count_actions] in Hcq, Htq.
  rewrite (Z.eqb_sym (playerIndex a0) (Z.of_nat i)) in Hcq, Htq.
  destruct (Z.of_nat i =? playerIndex a0); destruct (type a0);
    cbn [ActionType_eqb andb undo_action correct tryAgain] in *; lia.
Qed.

Lemma tracked_reset (s : State) : tracked (handleReset s).
Proof.
  intros i player Hi. cbn [handleReset players actionHistory] in *.
  rewrite list_lookup_fmap in Hi.
  destruct (players s !! i); [|discriminate].
  cbn in Hi. injection Hi as <-. cbn. auto.
Qed.

Lemma tracked_press (e : Event) (s : State) :
  tracked s -> tracked (press e s).
Proof.
  destruct e as [index now | index now | |]; cbn [press].
  - apply (tracked_score Correct).
  - apply (tracked_score TryAgain).
  - apply tracked_undo.
  - intros _. apply tracked_reset.
Qed.

Lemma run_snoc (events : list Event) (e : Event) (s : State) :
  run (events ++ [e]) s = press e (run events s).
Proof. unfold run. now rewrite foldl_app. Qed.

Lemma tracked_initial : tracked initial_state.
Proof.
  intros i player Hi. cbn in Hi.
  do 4 (destruct i as [|i]; [injection Hi as <-; cbn; auto|]).
  discriminate.
Qed.

Lemma run_tracked (events : list Event) : tracked (run events initial_state).
Proof.
  induction events as [|e events IH] using rev_ind.
  - apply tracked_initial.
  - rewrite run_snoc. now apply tracked_press.
Qed.

(** X11: in every state the screen can reach from the initial one by
    presses of the Correct, Try Again, Undo and Reset buttons, each
    player's [correct] and [tryAgain] are the numbers of actions of that
    type recorded for that player in the action history; so neither
    counter is ever negative. *)
Theorem counters_match_history (events : list Event) :
  tracked (run events initial_state) /\
  Forall (fun player => 0 <= correct player /\ 0 <= tryAgain player)
         (players (run events initial_state)).
Proof.
  pose proof (run_tracked events) as Ht. split; [exact Ht|].
  apply Forall_lookup. intros i player Hi.
  destruct (Ht i player Hi) as [-> ->].
  split; apply count_actions_nonneg.
Qed.

(** ** Accuracy *)

Lemma Math_round_bounds (x : Q) (lo hi : Z) :
  (inject_Z lo <= x)%Q -> (x <= inject_Z hi)%Q ->
  lo <= Math_round x <= hi.
Proof.
  intros Hlo Hhi. unfold Math_round. split.
  - rewrite <- (Qfloor_Z lo). apply Qfloor_resp_le. lra.
  - apply Z.lt_succ_r. rewrite Zlt_Qlt.
    eapply Qle_lt_trans; [apply Qfloor_le|].
    unfold Z.succ. rewrite inject_Z_plus. change (inject_Z 1) with 1%Q. lra.
Qed.

Lemma Math_round_Qeq (x y : Q) : (x == y)%Q -> Math_round x = Math_round y.
Proof. intros H. unfold Math_round. now rewrite H. Qed.

Lemma accuracy_ratio (c t : Z) :
  0 <= c <= t -> 0 < t ->
  (0 <= inject_Z c / inject_Z t * 100 <= 100)%Q.
Proof.
  intros Hc Ht.
  assert (0 < inject_Z t)%Q as Ht' by (rewrite Zlt_Qlt in Ht; exact Ht).
  assert (0 <= inject_Z c)%Q as Hc0
    by (change 0%Q with (inject_Z 0); rewrite <- Zle_Qle; lia).
  assert (inject_Z c <= inject_Z t)%Q as Hct by (rewrite <- Zle_Qle; lia).
  assert (0 <= inject_Z c / inject_Z t)%Q as H0.
  { apply Qle_shift_div_l; [exact Ht' | lra]. }
  assert (inject_Z c / inject_Z t <= 1)%Q as H1.
  { apply Qle_shift_div_r; [exact Ht' | lra]. }
  split; lra.
Qed.

(** X12: for counters with [0 <= correct <= total], [calculateAccuracy]
    is a whole number between 0 and 100; it is 0 when [total] is 0 or
    [correct] is 0, and 100 when every answer was correct. *)
Theorem accuracy_between_0_and_100 (c t : Z) :
  0 <= c <= t ->
  0 <= calculateAccuracy c t <= 100 /\
  (t = 0 \/ c = 0 -> calculateAccuracy c t = 0) /\
  (0 < t -> c = t -> calculateAccuracy c t = 100).
Proof.
  intros Hc. unfold calculateAccuracy.
  destruct (Z.eqb_spec t 0) as [-> | Ht].
  - split; [lia|]. split; [reflexivity | lia].
  - assert (0 < t) as Hpos by lia.
    destruct (accuracy_ratio c t Hc Hpos) as [Hlo Hhi].
    split; [apply Math_round_bounds; assumption|].
    split.
    + intros [-> | ->]; [lia|].
      assert (inject_Z 0 / inject_Z t * 100 == 0)%Q as E
        by (unfold Qdiv; change (inject_Z 0) with 0%Q; ring).
      now rewrite (Math_round_Qeq _ _ E).
    + intros _ ->.
      assert (inject_Z t / inject_Z t * 100 == 100)%Q as E.
      { field. intros H. rewrite Zlt_Qlt in Hpos.
        change (inject_Z 0) with 0%Q in Hpos. lra. }
      now rewrite (Math_round_Qeq _ _ E).
Qed.

Lemma accuracy_between_0_and_100_witness :
  0 <= 2 <= 3 /\
  0 <= calculateAccuracy 2 3 <= 100 /\
  (3 = 0 \/ 2 = 0 -> calculateAccuracy 2 3 = 0) /\
  (0 < 3 -> 2 = 3 -> calculateAccuracy 2 3 = 100).
Proof.
  assert (0 <= 2 <= 3) as H by lia.
  split; [exact H|].
  exact (accuracy_between_0_and_100 2 3 H).
Defined.

End TallyMore.
Section TallyRuns.
Import Tally.
Local Open Scope Z_scope.

Lemma press_consistent (e : Event) (s : State) :
  consistent s -> consistent (press e s).
Proof.
  intros Hs. unfold consistent in *.
  destruct e as [index now | index now | |]; cbn [press].
  - apply map_at_Forall; [cbn; intros; lia | exact Hs].
  - apply map_at_Forall; [cbn; intros; lia | exact Hs].
  - unfold handleUndo.
    destruct (length (actionHistory s) =? 0)%nat; [exact Hs|].
    destruct (actionHistory s !! _) as [lastAction|]; [|exact Hs].
    cbn [players]. apply map_at_Forall; [|exact Hs].
    intros player Hp. destruct (type lastAction); cbn; lia.
  - cbn [handleReset players]. apply Forall_forall.
    intros player (q & -> & _)%list_elem_of_fmap. reflexivity.
Qed.

Lemma run_consistent (events : list Event) :
  consistent (run events initial_state).
Proof.
  induction events as [|e events IH] using rev_ind.
  - repeat constructor.
  - rewrite run_snoc. now apply press_consistent.
Qed.

(** X13: in every state the screen can reach, the accuracy shown for each
    player, [calculateAccuracy(player.correct, player.total)], is between
    0 and 100 (it is also the width of the progress bar, in percent). *)
Theorem shown_accuracy_between_0_and_100 (events : list Event) :
  Forall (fun player =>
            0 <= calculateAccuracy (correct player) (total player) <= 100)
         (players (run events initial_state)).
Proof.
  pose proof (run_tracked events) as Ht.
  pose proof (run_consistent events) as Hc. unfold consistent in Hc.
  apply Forall_lookup. intros i player Hi.
  pose proof (Forall_lookup_1 _ _ _ _ Hc Hi) as Htot. cbn in Htot.
  destruct (Ht i player Hi) as [Hcor Htry].
  pose proof (count_actions_nonneg Correct (Z.of_nat i)
                (actionHistory (run events initial_state))).
  pose proof (count_actions_nonneg TryAgain (Z.of_nat i)
                (actionHistory (run events initial_state))).
  unfold calculateAccuracy.
  destruct (Z.eqb_spec (total player) 0) as [_ | Hne]; [lia|].
  apply Math_round_bounds; apply accuracy_ratio; lia.
Qed.

(** ** Undo *)

Lemma handleUndo_score (e : Event) (s : State) :
  scoring e = true -> handleUndo (press e s) = s.
Proof.
  destruct s as [ps h].
  destruct e as [index now | index now | |]; try discriminate; intros _.
  - cbn [press]. unfold handleCorrect. cbn [players actionHistory].
    rewrite handleUndo_last. cbn [playerIndex type]. f_equal.
    apply map_at_map_at. intros [n c t tot]. cbn. f_equal; lia.
  - cbn [press]. unfold handleTryAgain. cbn [players actionHistory].
    rewrite handleUndo_last. cbn [playerIndex type]. f_equal.
    apply map_at_map_at. intros [n c t tot]. cbn. f_equal; lia.
Qed.

(** X14: after any run of Correct and Try Again presses, pressing Undo as
    many times as there were presses gives back the state the run started
    from: every player's counters and the action history. *)
Theorem undo_reverses_every_scoring_press (events : list Event) (s : State) :
  Forall (fun e => scoring e = true) events ->
  Nat.iter (length events) handleUndo (run events s) = s.
Proof.
  induction events as [|e events IH] using rev_ind; intros Hall.
  - reflexivity.
  - apply Forall_app in Hall as [Hevents He].
    apply Forall_inv in He.
    rewrite length_app, Nat.add_comm. cbn [length Nat.add].
    rewrite Nat.iter_succ_r, run_snoc, handleUndo_score by exact He.
    now apply IH.
Qed.

Lemma undo_reverses_every_scoring_press_witness :
  Forall (fun e => scoring e = true)
    [PressCorrect 0 1000; PressTryAgain 2 2000; PressCorrect 0 3000] /\
  Nat.iter
    (length [PressCorrect 0 1000; PressTryAgain 2 2000; PressCorrect 0 3000])
    handleUndo
    (run [PressCorrect 0 1000; PressTryAgain 2 2000; PressCorrect 0 3000]
       initial_state)
  = initial_state.
Proof.
  assert (Forall (fun e => scoring e = true)
            [PressCorrect 0 1000; PressTryAgain 2 2000; PressCorrect 0 3000])
    as H by (repeat constructor).
  split; [exact H|].
  exact (undo_reverses_every_scoring_press _ initial_state H).
Defined.

(** ** Whom a press changes *)

(** X15: a Correct or Try Again press for a player the screen holds
    changes that player's entry only: the entry gets one more [correct]
    (or [tryAgain]) and one more [total] and keeps its name and its other
    counter, and every other entry of [players] stays as it was. *)
Theorem scoring_press_changes_one_player (index now : Z) (s : State)
    (player : TallyData) :
  0 <= index ->
  players s !! Z.to_nat index = Some player ->
  players (handleCorrect index now s) =
    <[Z.to_nat index :=
        mkTallyData (name player) (correct player + 1) (tryAgain player)
          (total player + 1)]> (players s) /\
  players (handleTryAgain index now s) =
    <[Z.to_nat index :=
        mkTallyData (name player) (correct player) (tryAgain player + 1)
          (total player + 1)]> (players s).
Proof.
  intros H0 Hp.
  assert (forall f : TallyData -> TallyData,
            map_at index f (players s) =
              <[Z.to_nat index := f player]> (players s)) as H.
  { intros f. apply list_eq. intros i. rewrite map_at_lookup.
    destruct (decide (i = Z.to_nat index)) as [-> | Hne].
    - rewrite list_lookup_insert_eq by (eapply lookup_lt_Some; eauto).
      rewrite Hp. cbn. rewrite Z2Nat.id by exact H0.
      now rewrite Z.eqb_refl.
    - rewrite list_lookup_insert_ne by congruence.
      destruct (players s !! i); [|reflexivity]. cbn.
      destruct (Z.eqb_spec (Z.of_nat i) index); [lia | reflexivity]. }
  split; cbn [handleCorrect handleTryAgain players]; apply H.
Qed.

Lemma scoring_press_changes_one_player_witness :
  0 <= 2 /\
  players initial_state !! Z.to_nat 2 = Some (mkTallyData "Player 3" 0 0 0) /\
  players (handleCorrect 2 1000 initial_state) =
    <[Z.to_nat 2 := mkTallyData "Player 3" (0 + 1) 0 (0 + 1)]>
      (players initial_state) /\
  players (handleTryAgain 2 1000 initial_state) =
    <[Z.to_nat 2 := mkTallyData "Player 3" 0 (0 + 1) (0 + 1)]>
      (players initial_state).
Proof.
  assert (0 <= 2) as H1 by lia.
  assert (players initial_state !! Z.to_nat 2
            = Some (mkTallyData "Player 3" 0 0 0)) as H2 by reflexivity.
  split; [exact H1|]. split; [exact H2|].
  exact (scoring_press_changes_one_player 2 1000 initial_state
           (mkTallyData "Player 3" 0 0 0) H1 H2).
Defined.

(** ** Reset *)

(** X16: [handleReset] keeps the players and their names, sets the three
    counters of each to 0 and empties the action history; a press on Undo
    right after it changes nothing, so the scores from before a reset do
    not come back. *)
Theorem reset_clears_scores_and_history (s : State) :
  length (players (handleReset s)) = length (players s) /\
  (forall (i : nat) (player : TallyData),
     players s !! i = Some player ->
     players (handleReset s) !! i = Some (mkTallyData (name player) 0 0 0)) /\
  actionHistory (handleReset s) = [] /\
  handleUndo (handleReset s) = handleReset s /\
  handleReset (handleReset s) = handleReset s.
Proof.
  split; [cbn; apply length_map|].
  split.
  { intros i player Hi. cbn [handleReset players].
    rewrite list_lookup_fmap, Hi. reflexivity. }
  split; [reflexivity|]. split; [reflexivity|].
  unfold handleReset. cbn [players]. f_equal.
  rewrite <- list_fmap_compose. reflexivity.
Qed.

(** ** Tally marks *)

Lemma sum_marks_replicate (n : nat) (g : TallyGroup) :
  sum_list_with marks (replicate n g) = (n * marks g)%nat.
Proof. induction n as [|n IH]; cbn; [reflexivity | now rewrite IH]. Qed.



End TallyRuns.
Section TallyColours.
Import Tally.
Local Open Scope Z_scope.

(** ** The colour picker *)

Lemma js_set_lookup_eq {A : Type} (arr : list (option A)) (i : Z) (v : A) :
  0 <= i -> js_set arr i v !! Z.to_nat i = Some (Some v).
Proof.
  intros H0. unfold js_set.
  destruct (Z.ltb_spec i 0); [lia|].
  destruct (Z.ltb_spec i (Z.of_nat (length arr))).
  - apply list_lookup_insert_eq. lia.
  - rewrite lookup_app_r by lia. rewrite lookup_app_r
      by (rewrite length_replicate; lia).
    rewrite length_replicate.
    now replace (Z.to_nat i - length arr
                 - (Z.to_nat i - length arr))%nat with 0%nat by lia.
Qed.

Lemma js_set_lookup_ne {A : Type} (arr : list (option A)) (i : Z) (v : A)
    (j : nat) :
  Z.of_nat j <> i -> (j < length arr)%nat ->
  js_set arr i v !! j = arr !! j.
Proof.
  intros Hne Hj. unfold js_set.
  destruct (Z.ltb_spec i 0); [reflexivity|].
  destruct (Z.ltb_spec i (Z.of_nat (length arr))).
  - apply list_lookup_insert_ne. lia.
  - now apply lookup_app_l.
Qed.

Lemma select_colours (p : Picker) (choices : list ColorPair) (c : ColorPair) :
  foldl (fun p c => handleColorSelect c p) p (choices ++ [c]) =
    mkPicker (colorPickerVisible p) (selectedPlayerIndex p) (Some c)
      (playerColors p).
Proof.
  revert p. induction choices as [|c0 choices IH]; intros p; [reflexivity|].
  cbn [app foldl]. now rewrite IH.
Qed.

(** X18: opening the picker for a player, choosing one or more colours
    and confirming gives that player the colour chosen last, leaves the
    colour of every other player as it was, closes the picker and clears
    the choice. *)
Theorem confirmed_colour_goes_to_selected_player (p : Picker) (index : Z)
    (choices : list ColorPair) (c : ColorPair) :
  0 <= index ->
  let p' :=
    confirmColorSelection
      (foldl (fun p c => handleColorSelect c p) (openColorPicker index p)
         (choices ++ [c])) in
  playerColors p' !! Z.to_nat index = Some (Some c) /\
  (forall j : nat,
     Z.of_nat j <> index -> (j < length (playerColors p))%nat ->
     playerColors p' !! j = playerColors p !! j) /\
  (index < Z.of_nat (length (playerColors p)) ->
   length (playerColors p') = length (playerColors p)) /\
  colorPickerVisible p' = false /\ selectedColor p' = None.
Proof.
  intros H0. rewrite select_colours. cbn.
  split; [now apply js_set_lookup_eq|].
  split; [intros j Hne Hj; now apply js_set_lookup_ne|].
  split; [|auto].
  intros Hlt. unfold js_set.
  destruct (Z.ltb_spec index 0); [lia|].
  destruct (Z.ltb_spec index (Z.of_nat (length (playerColors p)))); [|lia].
  apply length_insert.
Qed.

Lemma confirmed_colour_goes_to_selected_player_witness :
  0 <= 1 /\
  let p' :=
    confirmColorSelection
      (foldl (fun p c => handleColorSelect c p)
         (openColorPicker 1
            (mkPicker false 0 None
               [Some (mkColorPair "#2ACE80" "#1EA067");
                Some (mkColorPair "#FF6B6B" "#E85D5D")]))
         ([mkColorPair "#FFA500" "#E69500"]
          ++ [mkColorPair "#4D96FF" "#3F7FD9"])) in
  playerColors p' !! Z.to_nat 1
    = Some (Some (mkColorPair "#4D96FF" "#3F7FD9")) /\
  (forall j : nat,
     Z.of_nat j <> 1 ->
     (j < length (playerColors
                    (mkPicker false 0 None
                       [Some (mkColorPair "#2ACE80" "#1EA067");
                        Some (mkColorPair "#FF6B6B" "#E85D5D")])))%nat ->
     playerColors p' !! j =
       playerColors
         (mkPicker false 0 None
            [Some (mkColorPair "#2ACE80" "#1EA067");
             Some (mkColorPair "#FF6B6B" "#E85D5D")]) !! j) /\
  (1 < Z.of_nat
         (length (playerColors
                    (mkPicker false 0 None
                       [Some (mkColorPair "#2ACE80" "#1EA067");
                        Some (mkColorPair "#FF6B6B" "#E85D5D")]))) ->
   length (playerColors p') =
     length (playerColors
               (mkPicker false 0 None
                  [Some (mkColorPair "#2ACE80" "#1EA067");
                   Some (mkColorPair "#FF6B6B" "#E85D5D")]))) /\
  colorPickerVisible p' = false /\ selectedColor p' = None.
Proof.
  assert (0 <= 1) as H by lia.
  split; [exact H|].
  exact (confirmed_colour_goes_to_selected_player
           (mkPicker false 0 None
              [Some (mkColorPair "#2ACE80" "#1EA067");
               Some (mkColorPair "#FF6B6B" "#E85D5D")])
           1 [mkColorPair "#FFA500" "#E69500"]
           (mkColorPair "#4D96FF" "#3F7FD9") H).
Defined.

(** ** Lighter colours *)

Lemma clamp_byte (x : Q) :
  (0 <= Qmin (Qmax 0 x) 255 <= 255)%Q /\
  (0 <= x <= 255 -> Qmin (Qmax 0 x) 255 == x)%Q.
Proof.
  destruct (Q.max_spec 0 x) as [[? E1] | [? E1]];
    destruct (Q.min_spec (Qmax 0 x) 255) as [[? E2] | [? E2]];
    repeat split; intros; lra.
Qed.

Lemma lighten_channel_range (c : Z) (lum : Q) :
  0 <= lighten_channel c lum <= 255.
Proof.
  unfold lighten_channel.
  destruct (clamp_byte (inject_Z c + inject_Z c * lum)) as [[H0 H255] _].
  apply Math_round_bounds; assumption.
Qed.

Lemma lighten_channel_zero (c : Z) (lum : Q) :
  (lum == 0)%Q -> 0 <= c <= 255 -> lighten_channel c lum = c.
Proof.
  intros Hlum Hc.
  assert (0 <= inject_Z c)%Q as H0
    by (change 0%Q with (inject_Z 0); rewrite <- Zle_Qle; lia).
  assert (inject_Z c <= 255)%Q as H255
    by (change 255%Q with (inject_Z 255); rewrite <- Zle_Qle; lia).
  assert (inject_Z c + inject_Z c * lum == inject_Z c)%Q as E
    by (rewrite Hlum; ring).
  destruct (clamp_byte (inject_Z c + inject_Z c * lum)) as [_ Hid].
  specialize (Hid ltac:(split; rewrite E; assumption)).
  assert (c <= lighten_channel c lum <= c); [|lia].
  unfold lighten_channel.
  apply Math_round_bounds; rewrite Hid, E; apply Qle_refl.
Qed.

Lemma channel_is_byte (x : Z) : 0 <= Z.land x 255 <= 255.
Proof.
  change (Z.land x 255) with (Z.land x (Z.ones 8)).
  rewrite Z.land_ones by lia.
  change (2 ^ 8) with 256.
  pose proof (Z.mod_pos_bound x 256 ltac:(lia)). lia.
Qed.

Lemma pack_unpack (r g b : Z) :
  0 <= r <= 255 -> 0 <= g <= 255 -> 0 <= b <= 255 ->
  let n := Z.shiftl 1 24 + Z.shiftl r 16 + Z.shiftl g 8 + b in
  Z.land (Z.shiftr n 16) 255 = r /\
  Z.land (Z.shiftr n 8) 255 = g /\
  Z.land n 255 = b /\
  2 ^ 24 <= n < 2 ^ 25.
Proof.
  intros Hr Hg Hb n. subst n.
  rewrite !Z.shiftl_mul_pow2, !Z.shiftr_div_pow2 by lia.
  change 255 with (Z.ones 8). rewrite !Z.land_ones by lia.
  change (2 ^ 24) with 16777216. change (2 ^ 25) with 33554432.
  change (2 ^ 16) with 65536. change (2 ^ 8) with 256.
  repeat split; Z.div_mod_to_equations; lia.
Qed.

(** X19: the number [colorLuminance] prints always lies between
    [0x1000000] and [0x1ffffff], so its seven digits in base 16 lose the
    leading 1 to [slice(1)] and a six-digit colour remains; its red, green
    and blue bytes are the lightened bytes of the input, each between 0
    and 255. *)
Theorem lightened_colour_is_six_digits (rgb : Z) (lum : Q) :
  let n := colorLuminance_number rgb lum in
  2 ^ 24 <= n < 2 ^ 25 /\
  Z.land (Z.shiftr n 16) 255
    = lighten_channel (Z.land (Z.shiftr rgb 16) 255) lum /\
  Z.land (Z.shiftr n 8) 255
    = lighten_channel (Z.land (Z.shiftr rgb 8) 255) lum /\
  Z.land n 255 = lighten_channel (Z.land rgb 255) lum /\
  0 <= Z.land (Z.shiftr n 16) 255 <= 255 /\
  0 <= Z.land (Z.shiftr n 8) 255 <= 255 /\
  0 <= Z.land n 255 <= 255.
Proof.
  intros n. subst n. unfold colorLuminance_number.
  destruct (pack_unpack
              (lighten_channel (Z.land (Z.shiftr rgb 16) 255) lum)
              (lighten_channel (Z.land (Z.shiftr rgb 8) 255) lum)
              (lighten_channel (Z.land rgb 255) lum))
    as (Hr & Hg & Hb & Hn); try apply lighten_channel_range.
  cbv zeta in Hr, Hg, Hb, Hn.
  rewrite Hr, Hg, Hb.
  repeat split; try apply Hn; try reflexivity; apply lighten_channel_range.
Qed.

(** X20: with [lum] equal to 0, [colorLuminance] gives back the colour it
    was given: for a colour number below [0x1000000] the number printed
    is [0x1000000] plus that number. *)
Theorem zero_luminance_keeps_colour (rgb : Z) (lum : Q) :
  (lum == 0)%Q -> 0 <= rgb < 2 ^ 24 ->
  colorLuminance_number rgb lum = 2 ^ 24 + rgb.
Proof.
  intros Hlum Hrgb. unfold colorLuminance_number.
  rewrite !lighten_channel_zero by (try exact Hlum; apply channel_is_byte).
  rewrite !Z.shiftl_mul_pow2, !Z.shiftr_div_pow2 by lia.
  change 255 with (Z.ones 8). rewrite !Z.land_ones by lia.
  change (2 ^ 24) with 16777216 in *.
  change (2 ^ 16) with 65536. change (2 ^ 8) with 256.
  assert (rgb / 65536 < 256) by (apply Z.div_lt_upper_bound; lia).
  assert (0 <= rgb / 65536) by (apply Z.div_pos; lia).
  rewrite (Z.mod_small (rgb / 65536) 256) by lia.
  pose proof (Z.div_mod rgb 65536 ltac:(lia)) as H1.
  pose proof (Z.mod_pos_bound rgb 65536 ltac:(lia)) as B1.
  pose proof (Z.div_mod rgb 256 ltac:(lia)) as H2.
  pose proof (Z.mod_pos_bound rgb 256 ltac:(lia)) as B2.
  pose proof (Z.div_mod (rgb / 256) 256 ltac:(lia)) as H3.
  pose proof (Z.mod_pos_bound (rgb / 256) 256 ltac:(lia)) as B3.
  assert (rgb / 256 / 256 = rgb / 65536) as H4
    by (rewrite Z.div_div by lia; reflexivity).
  rewrite H4 in H3. lia.
Qed.

Lemma zero_luminance_keeps_colour_witness :
  (0 == 0)%Q /\ 0 <= 2805376 < 2 ^ 24 /\
  colorLuminance_number 2805376 0 = 2 ^ 24 + 2805376.
Proof.
  assert (0 == 0)%Q as H1 by reflexivity.
  assert (0 <= 2805376 < 2 ^ 24) as H2 by (cbn; lia).
  split; [exact H1|]. split; [exact H2|].
  exact (zero_luminance_keeps_colour 2805376 0 H1 H2).
Defined.

End TallyColours.
